(** * go-sse-wsgi-sidecar: a shallow embedding and its properties

    The repository holds two variants of the relay:
    - [main.go]: one bus subscription per authenticated connection
      (module [PerUser]);
    - the older variant with one shared subscription on channel [events]
      and a [clientManager] goroutine owning the registry of connections
      (module [Shared]).
    Both share [verifySseToken] and the frame format of the dispatcher.

    Go strings are byte sequences: they are embedded as [string].
    [int64] values are embedded as [Z]; instants ([time.Time]) as [Z] on an
    arbitrary linear time scale.  Effects are explicit: the clock reading
    is an argument, the response writer and the channels are state. *)

From Stdlib Require Import ZArith Lia DecimalString DecimalZ.
From stdpp Require Import gmap strings list fin_maps.

Local Open Scope Z_scope.

(** Go's [(T, error)] results where the caller looks at [T] only when the
    error is nil. *)
Inductive Result (E A : Type) : Type :=
| Ok (a : A)
| Err (e : E).
Arguments Ok {E A} a.
Arguments Err {E A} e.

(** ** The token library (github.com/golang-jwt/jwt/v5, pinned at v5.3.0)

    The library is a dependency, not code of the repository.  Its
    verification pipeline ([Parser.ParseWithClaims], [Validator.Validate],
    [SigningMethodHMAC.Verify], the table of registered signing methods) is
    written out below; the byte-level codec (segment splitting, base64url,
    [encoding/json]) and the keyed hash ([crypto/hmac]) are parameters. *)
Module Jwt.

Inductive Hash := SHA256 | SHA384 | SHA512.

(** The signing methods the library registers in its [init] functions. *)
Inductive SigningMethod :=
| SigningMethodHMAC (h : Hash)
| SigningMethodRSA (h : Hash)
| SigningMethodRSAPSS (h : Hash)
| SigningMethodECDSA (h : Hash)
| SigningMethodEd25519
| signingMethodNone.

Definition GetSigningMethod (alg : string) : option SigningMethod :=
  if String.eqb alg "HS256" then Some (SigningMethodHMAC SHA256)
  else if String.eqb alg "HS384" then Some (SigningMethodHMAC SHA384)
  else if String.eqb alg "HS512" then Some (SigningMethodHMAC SHA512)
  else if String.eqb alg "RS256" then Some (SigningMethodRSA SHA256)
  else if String.eqb alg "RS384" then Some (SigningMethodRSA SHA384)
  else if String.eqb alg "RS512" then Some (SigningMethodRSA SHA512)
  else if String.eqb alg "PS256" then Some (SigningMethodRSAPSS SHA256)
  else if String.eqb alg "PS384" then Some (SigningMethodRSAPSS SHA384)
  else if String.eqb alg "PS512" then Some (SigningMethodRSAPSS SHA512)
  else if String.eqb alg "ES256" then Some (SigningMethodECDSA SHA256)
  else if String.eqb alg "ES384" then Some (SigningMethodECDSA SHA384)
  else if String.eqb alg "ES512" then Some (SigningMethodECDSA SHA512)
  else if String.eqb alg "EdDSA" then Some SigningMethodEd25519
  else if String.eqb alg "none" then Some signingMethodNone
  else None.

(** [jwt.RegisteredClaims]: the time-valued claims are optional
    ([*NumericDate], nil when the claim is absent). *)
Record RegisteredClaims := {
  Issuer : string;
  Subject : string;
  Audience : list string;
  ExpiresAt : option Z;
  NotBefore : option Z;
  IssuedAt : option Z;
  ID : string
}.

(** What the codec yields for a three-segment token: the [alg] entry of
    the header when it is a string, the claims segment decoded into the
    caller's claims struct, the text that was signed (the first two
    segments joined by a dot) and the decoded third segment ([None] when
    it is not base64url). *)
Record Segments (C : Type) := {
  alg : option string;
  claims : C;
  signingString : string;
  signature : option string
}.
Arguments alg {C} _.
Arguments claims {C} _.
Arguments signingString {C} _.
Arguments signature {C} _.

(** [jwt.Token]; of the header only the [alg] entry is kept. *)
Record Token (C : Type) := {
  Raw : string;
  Method : SigningMethod;
  Header : gmap string string;
  Claims : C;
  Signature : string;
  Valid : bool
}.
Arguments Raw {C} _.
Arguments Method {C} _.
Arguments Header {C} _.
Arguments Claims {C} _.
Arguments Signature {C} _.
Arguments Valid {C} _.

Inductive ClaimError := ErrTokenExpired | ErrTokenNotValidYet.

Inductive Error :=
| ErrTokenMalformed
| ErrTokenUnverifiable (keyfunc_error : option string)
| ErrTokenSignatureInvalid
| ErrTokenInvalidClaims (errs : list ClaimError).

(** [Validator.verifyExpiresAt] with the default options (no leeway,
    [exp] not required): [cmp.Before(exp)]. *)
Definition verifyExpiresAt (c : RegisteredClaims) (now : Z) : list ClaimError :=
  match ExpiresAt c with
  | None => []
  | Some exp => if now <? exp then [] else [ErrTokenExpired]
  end.

(** [Validator.verifyNotBefore]: [!cmp.Before(nbf)]. *)
Definition verifyNotBefore (c : RegisteredClaims) (now : Z) : list ClaimError :=
  match NotBefore c with
  | None => []
  | Some nbf => if now <? nbf then [ErrTokenNotValidYet] else []
  end.

(** [Validator.Validate] with the default validator: [exp] and [nbf] are
    always checked; [iat], [aud], [iss] and [sub] only on request, and the
    parser of [verifySseToken] requests none of them. *)
Definition Validate (c : RegisteredClaims) (now : Z) : list ClaimError :=
  verifyExpiresAt c now ++ verifyNotBefore c now.

Section Parser.
Context {C : Type}.
(** The claims struct gives access to its registered claims. *)
Variable registered : C -> RegisteredClaims.
(** Segment splitting, base64url and JSON decoding. *)
Variable decode : string -> option (Segments C).
(** [hmac.New(h, key)] applied to a message. *)
Variable mac : Hash -> string -> string -> string.

(** [Parser.ParseUnverified]. *)
Definition ParseUnverified (tokenString : string)
  : Result Error (Token C * Segments C) :=
  match decode tokenString with
  | None => Err ErrTokenMalformed
  | Some seg =>
      match alg seg with
      | None => Err (ErrTokenUnverifiable None)
      | Some a =>
          match GetSigningMethod a with
          | None => Err (ErrTokenUnverifiable None)
          | Some m =>
              Ok ({| Raw := tokenString; Method := m;
                     Header := {[ "alg" := a ]}; Claims := claims seg;
                     Signature := ""; Valid := false |}, seg)
          end
      end
  end.

(** [SigningMethod.Verify] when the key is a [[]byte]: only the HMAC
    methods take such a key, every other method answers
    [ErrInvalidKeyType] (here [false]). *)
Definition Verify (m : SigningMethod) (text sig key : string) : bool :=
  match m with
  | SigningMethodHMAC h => bool_decide (sig = mac h key text)
  | _ => false
  end.

(** [Parser.ParseWithClaims]; [keyFunc] returns the key as [[]byte]. *)
Definition ParseWithClaims (now : Z) (tokenString : string)
    (keyFunc : Token C -> Result string string) : Result Error (Token C) :=
  match ParseUnverified tokenString with
  | Err e => Err e
  | Ok (token, seg) =>
      match signature seg with
      | None => Err ErrTokenMalformed
      | Some sig =>
          let token := {| Raw := Raw token; Method := Method token;
                          Header := Header token;
                          Claims := Claims token; Signature := sig;
                          Valid := false |} in
          match keyFunc token with
          | Err e => Err (ErrTokenUnverifiable (Some e))
          | Ok key =>
              if Verify (Method token) (signingString seg) sig key then
                match Validate (registered (Claims token)) now with
                | [] => Ok {| Raw := Raw token; Method := Method token;
                              Header := Header token;
                              Claims := Claims token; Signature := sig;
                              Valid := true |}
                | errs => Err (ErrTokenInvalidClaims errs)
                end
              else Err ErrTokenSignatureInvalid
          end
      end
  end.
End Parser.

End Jwt.

(** ** Token verification (both variants have the same [verifySseToken]) *)

Record SSETokenClaims := {
  UserID : Z;
  RegisteredClaims : Jwt.RegisteredClaims
}.

Inductive VerifyError :=
| TokenParseError (e : Jwt.Error)
| InvalidToken.

Section Verify.
Variable decode : string -> option (Jwt.Segments SSETokenClaims).
Variable mac : Jwt.Hash -> string -> string -> string.

(** The key function passed to [jwt.ParseWithClaims]; its error shows
    [token.Header["alg"]] as [%v] prints it. *)
Definition keyFunc (secret : string) (token : Jwt.Token SSETokenClaims)
  : Result string string :=
  match Jwt.Method token with
  | Jwt.SigningMethodHMAC _ => Ok secret
  | _ => Err ("unexpected signing method: "
              +:+ default "<nil>" (Jwt.Header token !! "alg"))
  end.

Definition verifySseToken (now : Z) (tokenString secret : string)
  : Result VerifyError SSETokenClaims :=
  match Jwt.ParseWithClaims RegisteredClaims decode mac now tokenString
          (keyFunc secret) with
  | Err err => Err (TokenParseError err)
  | Ok token =>
      if Jwt.Valid token then Ok (Jwt.Claims token) else Err InvalidToken
  end.
End Verify.

(** The three ways of the claim in which a token is unacceptable for the
    configured [secret] at instant [now]. *)
Definition signed_with_other_secret
    (mac : Jwt.Hash -> string -> string -> string)
    (seg : Jwt.Segments SSETokenClaims) (secret : string) : Prop :=
  exists a h other,
    Jwt.alg seg = Some a /\
    Jwt.GetSigningMethod a = Some (Jwt.SigningMethodHMAC h) /\
    other <> secret /\
    Jwt.signature seg = Some (mac h other (Jwt.signingString seg)) /\
    mac h other (Jwt.signingString seg) <> mac h secret (Jwt.signingString seg).

Definition declares_non_HMAC (seg : Jwt.Segments SSETokenClaims) : Prop :=
  exists a, Jwt.alg seg = Some a /\
    forall h, Jwt.GetSigningMethod a <> Some (Jwt.SigningMethodHMAC h).

Definition expired (seg : Jwt.Segments SSETokenClaims) (now : Z) : Prop :=
  exists exp, Jwt.ExpiresAt (RegisteredClaims (Jwt.claims seg)) = Some exp /\
    exp < now.

(** A token that decodes, names an HMAC method, carries the tag of the
    configured secret and expires after [now]. *)
Definition signed_and_unexpired
    (mac : Jwt.Hash -> string -> string -> string)
    (seg : Jwt.Segments SSETokenClaims) (secret : string) (now : Z) : Prop :=
  exists a h exp,
    Jwt.alg seg = Some a /\
    Jwt.GetSigningMethod a = Some (Jwt.SigningMethodHMAC h) /\
    Jwt.signature seg = Some (mac h secret (Jwt.signingString seg)) /\
    Jwt.ExpiresAt (RegisteredClaims (Jwt.claims seg)) = Some exp /\
    now < exp.

(** The token's [nbf] claim, when it has one, is not after [now]. *)
Definition not_before_reached (seg : Jwt.Segments SSETokenClaims) (now : Z) : Prop :=
  match Jwt.NotBefore (RegisteredClaims (Jwt.claims seg)) with
  | None => True
  | Some nbf => nbf <= now
  end.

(** ** Process environment, request and response writer *)

(** [os.Getenv]: the empty string when the variable is not set. *)
Definition Getenv (env : gmap string string) (key : string) : string :=
  default "" (env !! key).

(** [godotenv.Load]: variables of the [.env] file are added to the
    environment, variables already set keep their value. *)
Definition godotenv_Load (env dotenv : gmap string string) : gmap string string :=
  env ∪ dotenv.

(** [url.Values.Get]: the first value of the key, or the empty string. *)
Definition Query_Get (query : gmap string (list string)) (key : string) : string :=
  match query !! key with
  | Some (v :: _) => v
  | _ => ""
  end.

Record Request := {
  query : gmap string (list string)
}.

(** [http.ResponseWriter]: [status] is [None] until [WriteHeader] is
    called; [flusher] tells whether the writer implements [http.Flusher]. *)
Record ResponseWriter := {
  header : gmap string string;
  status : option Z;
  body : string;
  flusher : bool
}.

Definition Header_Set (k v : string) (w : ResponseWriter) : ResponseWriter :=
  {| header := <[k:=v]> (header w); status := status w; body := body w;
     flusher := flusher w |}.

(** [WriteHeader]: only the first call takes effect. *)
Definition WriteHeader (code : Z) (w : ResponseWriter) : ResponseWriter :=
  {| header := header w;
     status := match status w with Some s => Some s | None => Some code end;
     body := body w; flusher := flusher w |}.

(** [Write]: the first write sends status 200 when none was set. *)
Definition Write (data : string) (w : ResponseWriter) : ResponseWriter :=
  let w := WriteHeader 200 w in
  {| header := header w; status := status w; body := body w +:+ data;
     flusher := flusher w |}.

(** The line feed, written [\n] in Go string literals. *)
Definition LF : string := String (Ascii.ascii_of_nat 10) EmptyString.

(** [http.Error]. *)
Definition http_Error (msg : string) (code : Z) (w : ResponseWriter) : ResponseWriter :=
  Write (msg +:+ LF) (WriteHeader code
       (Header_Set "X-Content-Type-Options" "nosniff"
          (Header_Set "Content-Type" "text/plain; charset=utf-8" w))).

(** The status line the server sends once the handler has returned: 200
    when the handler never wrote one. *)
Definition sent_status (w : ResponseWriter) : Z := default 200 (status w).

Definition StatusUnauthorized : Z := 401.
Definition StatusInternalServerError : Z := 500.

(** ** Buffered channels of strings *)

Inductive Panic :=
| SendOnClosedChannel
| CloseOfClosedChannel
| NilPointerDereference.

Module Chan.
Record t := { cap : nat; buf : list string; closed : bool }.

(** [make(chan string, n)]. *)
Definition make (n : nat) : t := {| cap := n; buf := []; closed := false |}.

Definition len (c : t) : nat := length (buf c).

(** The outcome of [select { case c <- msg: ... default: ... }]. *)
Inductive TrySend :=
| Sent (c' : t)
| Full
| SendPanics.

Definition try_send (c : t) (msg : string) : TrySend :=
  if closed c then SendPanics
  else if (len c <? cap c)%nat
       then Sent {| cap := cap c; buf := buf c ++ [msg]; closed := closed c |}
       else Full.

(** [<-c] when it can proceed: the oldest buffered message, or the zero
    value once the channel is closed and drained; [None] when the
    receive blocks. *)
Definition recv (c : t) : option (string * t) :=
  match buf c with
  | m :: rest => Some (m, {| cap := cap c; buf := rest; closed := closed c |})
  | [] => if closed c then Some ("", c) else None
  end.

(** [close(c)]. *)
Definition close (c : t) : Result Panic t :=
  if closed c then Err CloseOfClosedChannel
  else Ok {| cap := cap c; buf := buf c; closed := true |}.
End Chan.

(** ** Dispatcher output (both variants) *)

(** [fmt.Sprintf("%d", n)] for an [int64]. *)
Definition fmt_d (n : Z) : string := NilEmpty.string_of_int (Z.to_int n).

(** [fmt.Fprintf(w, "data: %s\n\n", msg)]. *)
Definition frame (msg : string) : string := "data: " +:+ msg +:+ LF +:+ LF.

(** One iteration of the dispatcher loop on a received message. *)
Definition dispatch (msg : string) (w : ResponseWriter) : ResponseWriter :=
  Write (frame msg) w.

(** The frames of a sequence of messages, one after the other. *)
Definition frames (msgs : list string) : string :=
  foldr (fun msg rest => frame msg +:+ rest) "" msgs.

(** What a handler did besides writing to its response. *)
Inductive Effect :=
| Log (line : string)
| MakeChan (capacity : nat)
| NewRedisClient
| GoSubscribe (channelName : string)
| SendAddClient
| DeferRemoveClient.

(** The subscriptions among the effects of a handler. *)
Definition subscriptions (es : list Effect) : list string :=
  omap (fun e => match e with GoSubscribe name => Some name | _ => None end) es.

(** How a handler's set-up ends. *)
Inductive Outcome :=
| Returned                         (* the handler returned *)
| Panicked (p : Panic)             (* recovered by the HTTP server *)
| Fatal (line : string)            (* [log.Fatal]: the process exits *)
| Streaming (userID : Z).          (* the dispatcher loop is entered *)

Record Setup := {
  resp : ResponseWriter;
  effects : list Effect;
  outcome : Outcome
}.

(** Effects that allocate a queue or attach the connection to the bus or
    to the registry. *)
Definition allocates (e : Effect) : bool :=
  match e with
  | Log _ => false
  | _ => true
  end.

(** ** Start-up: [getRedisClient] and [main] (the same in both variants,
    up to the two goroutines the shared variant starts before serving) *)

Inductive Process :=
| Exited (line : string)             (* [log.Fatal] before serving *)
| ListenAndServe (addr : string).    (* [http.ListenAndServe] is reached *)

Section Startup.
(** [redis.ParseURL] and the outcome of [rdb.Ping]. *)
Variable Options : Type.
Variable ParseURL : string -> option Options.
Variable Ping : Options -> bool.

Definition getRedisClient (env : gmap string string) : Result string Options :=
  let url := Getenv env "GO_SSE_SIDECAR_REDIS_URL" in
  if String.eqb url "" then Err "GO_SSE_SIDECAR_REDIS_URL not set"
  else match ParseURL url with
       | None => Err "Failed to parse Redis URL"
       | Some opts => Ok opts
       end.

Definition main (env dotenv : gmap string string) : Process :=
  let env := godotenv_Load env dotenv in
  match getRedisClient env with
  | Err line => Exited line
  | Ok rdb =>
      if Ping rdb then
        let port := Getenv env "GO_SSE_SIDECAR_PORT" in
        let port := if String.eqb port "" then "5687" else port in
        ListenAndServe (":" +:+ port)
      else Exited "Redis error"
  end.
End Startup.

(** ** The per-connection variant ([main.go]) *)
Module PerUser.

(** [make(chan string, 10)]. *)
Definition capacity : nat := 10.

Definition channelName (userID : Z) : string := "events:user:" +:+ fmt_d userID.

Section Handler.
Variable decode : string -> option (Jwt.Segments SSETokenClaims).
Variable mac : Jwt.Hash -> string -> string -> string.
Variable Options : Type.
Variable ParseURL : string -> option Options.

(** [sseHandler] up to the point where it returns or enters the
    dispatcher loop. *)
Definition sseHandler (env : gmap string string) (now : Z)
    (w : ResponseWriter) (r : Request) : Setup :=
  let w := Header_Set "Access-Control-Allow-Origin" "*" w in
  let w := Header_Set "Access-Control-Allow-Credentials" "true" w in
  let token := Query_Get (query r) "ssetoken" in
  let secret := Getenv env "GO_SSE_SIDECAR_TOKEN" in
  match verifySseToken decode mac now token secret with
  | Err _ =>
      {| resp := http_Error "Unauthorized" StatusUnauthorized w;
         effects := [Log "Token verification failed"];
         outcome := Returned |}
  | Ok claims =>
      let userID := UserID claims in
      (* [claims.ExpiresAt.Time] dereferences a nil pointer when the
         token carries no [exp] claim *)
      match Jwt.ExpiresAt (RegisteredClaims claims) with
      | None =>
          {| resp := w; effects := [];
             outcome := Panicked NilPointerDereference |}
      | Some _ =>
          let log := Log "Authenticated SSE connection" in
          if flusher w then
            match getRedisClient Options ParseURL env with
            | Err line =>
                {| resp := w; effects := [log; MakeChan capacity];
                   outcome := Fatal line |}
            | Ok _ =>
                let w := Header_Set "Content-Type" "text/event-stream" w in
                let w := Header_Set "Cache-Control" "no-cache" w in
                let w := Header_Set "Connection" "keep-alive" w in
                {| resp := w;
                   effects := [log; MakeChan capacity; NewRedisClient;
                               GoSubscribe (channelName userID)];
                   outcome := Streaming userID |}
            end
          else
            {| resp := http_Error "Streaming unsupported"
                         StatusInternalServerError w;
               effects := [log];
               outcome := Returned |}
      end
  end.
End Handler.

(** One connection after set-up: the queue, the response, the
    cancellation signal and the two loops working on them.  [received],
    [written] and [dropped] record what the loops did. *)
Record Conn := {
  userID : Z;
  queue : Chan.t;
  w : ResponseWriter;
  ctxDone : bool;
  bridge : bool;          (* [subscribeToUserChannel] is in its loop *)
  dispatcher : bool;      (* [sseHandler] is in its loop *)
  received : list string;
  written : list string;
  dropped : list string
}.

(** The connection as [sseHandler] leaves it when it enters the loop;
    [subscribed] is whether the subscription of the bridge was
    confirmed ([pubsub.Receive] without error). *)
Definition open (uid : Z) (w0 : ResponseWriter) (subscribed : bool) : Conn :=
  {| userID := uid; queue := Chan.make capacity; w := w0; ctxDone := false;
     bridge := subscribed; dispatcher := true;
     received := []; written := []; dropped := [] |}.

Inductive Event :=
| Published (channel payload : string)  (* a publish on the bus *)
| Deliver             (* the dispatcher's select takes the queue case *)
| Cancel              (* the request context is cancelled *)
| BridgeStop          (* the bridge's select takes [ctx.Done] *)
| DispatcherStop.     (* the dispatcher's select takes [ctx.Done] *)

(** The body of the bridge loop for a message of its subscription. *)
Definition subscribeToUserChannel_msg (payload : string) (c : Conn)
  : Result Panic Conn :=
  match Chan.try_send (queue c) payload with
  | Chan.Sent q =>
      Ok {| userID := userID c; queue := q; w := w c; ctxDone := ctxDone c;
            bridge := bridge c; dispatcher := dispatcher c;
            received := received c ++ [payload]; written := written c;
            dropped := dropped c |}
  | Chan.Full =>
      Ok {| userID := userID c; queue := queue c; w := w c;
            ctxDone := ctxDone c; bridge := bridge c;
            dispatcher := dispatcher c;
            received := received c ++ [payload]; written := written c;
            dropped := dropped c ++ [payload] |}
  | Chan.SendPanics => Err SendOnClosedChannel
  end.

(** The body of the dispatcher loop when the queue has a message. *)
Definition sseHandler_msg (c : Conn) : Conn :=
  match Chan.recv (queue c) with
  | Some (msg, q) =>
      {| userID := userID c; queue := q; w := dispatch msg (w c);
         ctxDone := ctxDone c; bridge := bridge c;
         dispatcher := dispatcher c; received := received c;
         written := written c ++ [msg]; dropped := dropped c |}
  | None => c
  end.

(** The bus hands a publish to the subscriptions of exactly that
    channel; an event that is not enabled leaves the connection as it
    is. *)
Definition step (c : Conn) (e : Event) : Result Panic Conn :=
  match e with
  | Published channel payload =>
      if bridge c && String.eqb channel (channelName (userID c))
      then subscribeToUserChannel_msg payload c
      else Ok c
  | Deliver => Ok (if dispatcher c then sseHandler_msg c else c)
  | Cancel =>
      Ok {| userID := userID c; queue := queue c; w := w c; ctxDone := true;
            bridge := bridge c; dispatcher := dispatcher c;
            received := received c; written := written c;
            dropped := dropped c |}
  | BridgeStop =>
      Ok {| userID := userID c; queue := queue c; w := w c;
            ctxDone := ctxDone c; bridge := bridge c && negb (ctxDone c);
            dispatcher := dispatcher c; received := received c;
            written := written c; dropped := dropped c |}
  | DispatcherStop =>
      Ok {| userID := userID c; queue := queue c; w := w c;
            ctxDone := ctxDone c; bridge := bridge c;
            dispatcher := dispatcher c && negb (ctxDone c);
            received := received c; written := written c;
            dropped := dropped c |}
  end.

(** What the schedule [es] makes the bus hand to the bridge of user
    [uid]: the payloads published on the channel of [uid] while the bridge
    is in its loop ([running]), which it leaves at a [BridgeStop] that
    comes after the cancellation ([done]). *)
Fixpoint handed_to_bridge (uid : Z) (running done : bool) (es : list Event)
  : list string :=
  match es with
  | [] => []
  | Published channel payload :: es =>
      if running && String.eqb channel (channelName uid)
      then payload :: handed_to_bridge uid running done es
      else handed_to_bridge uid running done es
  | Cancel :: es => handed_to_bridge uid running true es
  | BridgeStop :: es => handed_to_bridge uid (running && negb done) done es
  | _ :: es => handed_to_bridge uid running done es
  end.

(** The events that concern the connection of user [uid]: all but the
    publishes on other channels than its own. *)
Definition concerns (uid : Z) (e : Event) : bool :=
  match e with
  | Published channel _ => String.eqb channel (channelName uid)
  | _ => true
  end.

(** A publish on the channel of user [uid]. *)
Definition publish (uid : Z) (payload : string) : Event :=
  Published (channelName uid) payload.

Fixpoint run (c : Conn) (es : list Event) : Result Panic Conn :=
  match es with
  | [] => Ok c
  | e :: es =>
      match step c e with
      | Ok c' => run c' es
      | Err p => Err p
      end
  end.

(** What holds of a connection all along its life; [w0] is the response
    writer at the time the dispatcher loop is entered. *)
Record inv (uid : Z) (w0 : ResponseWriter) (c : Conn) : Prop := {
  inv_user : userID c = uid;
  inv_open : Chan.closed (queue c) = false;
  inv_cap : Chan.cap (queue c) = capacity;
  inv_len : (Chan.len (queue c) <= capacity)%nat;
  inv_order : written c ++ Chan.buf (queue c) `sublist_of` received c;
  inv_exact : dropped c = [] -> written c ++ Chan.buf (queue c) = received c;
  inv_count : length (received c)
              = (length (written c) + Chan.len (queue c) + length (dropped c))%nat;
  inv_body : body (w c) = body w0 +:+ frames (written c)
}.

End PerUser.

(** ** The shared variant: one subscription, a registry of connections
    owned by [clientManager] *)
Module Shared.

Definition capacity : nat := 10.

Section Handler.
Variable decode : string -> option (Jwt.Segments SSETokenClaims).
Variable mac : Jwt.Hash -> string -> string -> string.

(** [sseHandler] up to the point where it returns or enters the
    dispatcher loop. *)
Definition sseHandler (env : gmap string string) (now : Z)
    (w : ResponseWriter) (r : Request) : Setup :=
  let w := Header_Set "Access-Control-Allow-Origin" "*" w in
  let w := Header_Set "Access-Control-Allow-Credentials" "true" w in
  let token := Query_Get (query r) "ssetoken" in
  let secret := Getenv env "GO_SSE_SIDECAR_TOKEN" in
  match verifySseToken decode mac now token secret with
  | Err _ =>
      {| resp := w;
         effects := [Log "Token verification failed:"];
         outcome := Returned |}
  | Ok claims =>
      let userID := UserID claims in
      match Jwt.ExpiresAt (RegisteredClaims claims) with
      | None =>
          {| resp := w; effects := [Log "Token success! UserID:"];
             outcome := Panicked NilPointerDereference |}
      | Some _ =>
          let logs := [Log "Token success! UserID:";
                       Log "Token expires at:"] in
          if flusher w then
            let w := Header_Set "Content-Type" "text/event-stream" w in
            let w := Header_Set "Cache-Control" "no-cache" w in
            let w := Header_Set "Connection" "keep-alive" w in
            {| resp := w;
               effects := logs ++ [MakeChan capacity; SendAddClient;
                                   DeferRemoveClient];
               outcome := Streaming userID |}
          else
            {| resp := http_Error "Streaming unsupported"
                         StatusInternalServerError w;
               effects := logs;
               outcome := Returned |}
      end
  end.
End Handler.

(** A [*SSEClient] is an address; [chans] holds the channel of each
    allocated client, [clients] is the global registry
    [map[*SSEClient]bool]. *)
Record State := {
  chans : gmap nat Chan.t;
  clients : gmap nat bool
}.

Definition init : State := {| chans := ∅; clients := ∅ |}.

(** The commands [clientManager] selects on. *)
Inductive Command :=
| AddClient (client : nat)
| RemoveClient (client : nat)
| Broadcast (msg : string).

(** [delete(clients, client); close(client.channel)]. *)
Definition remove (client : nat) (st : State) : Result Panic State :=
  let registry := delete client (clients st) in
  match chans st !! client with
  | None => Err NilPointerDereference
  | Some ch =>
      match Chan.close ch with
      | Err p => Err p
      | Ok ch' => Ok {| chans := <[client:=ch']> (chans st);
                        clients := registry |}
      end
  end.

(** The body of the loop over the registry in the broadcast case. *)
Definition send_or_evict (msg : string) (client : nat) (st : State)
  : Result Panic State :=
  match chans st !! client with
  | None => Err NilPointerDereference
  | Some ch =>
      match Chan.try_send ch msg with
      | Chan.Sent ch' => Ok {| chans := <[client:=ch']> (chans st);
                               clients := clients st |}
      | Chan.Full => remove client st
      | Chan.SendPanics => Err SendOnClosedChannel
      end
  end.

(** [for client := range clients { ... }] visiting the keys in [order]. *)
Fixpoint range_clients (order : list nat) (msg : string) (st : State)
  : Result Panic State :=
  match order with
  | [] => Ok st
  | client :: rest =>
      match send_or_evict msg client st with
      | Ok st' => range_clients rest msg st'
      | Err p => Err p
      end
  end.

(** Go leaves the iteration order of a map unspecified: any enumeration
    of the registered clients is possible. *)
Definition range_order (st : State) (order : list nat) : Prop :=
  order ≡ₚ elements (dom (clients st)).

(** One iteration of [clientManager]; [order] is the order in which the
    range loop visits the registry. *)
Definition clientManager_step (order : list nat) (cmd : Command) (st : State)
  : Result Panic State :=
  match cmd with
  | AddClient client =>
      Ok {| chans := chans st; clients := <[client:=true]> (clients st) |}
  | RemoveClient client => remove client st
  | Broadcast msg => range_clients order msg st
  end.

(** The handler allocates its client: [make(chan string, 10)]. *)
Definition new_client (client : nat) (st : State) : State :=
  {| chans := <[client:=Chan.make capacity]> (chans st);
     clients := clients st |}.

(** The dispatcher of [client] takes the queue case of its select. *)
Definition receive (client : nat) (st : State) : State :=
  match chans st !! client ≫= Chan.recv with
  | Some (_, ch') => {| chans := <[client:=ch']> (chans st);
                        clients := clients st |}
  | None => st
  end.

(** [redisSubscriber]: when the subscription to [events] is confirmed,
    every payload of the subscription is sent on [broadcast], in order;
    when it is not, the goroutine returns without forwarding. *)
Definition redisSubscriber (subscribed : bool) (payloads : list string)
  : list Command :=
  if subscribed then Broadcast <$> payloads else [].

(** One iteration of the dispatcher loop of [sseHandler] on its own
    channel and response: [None] when the receive blocks.  The loop takes
    whatever the receive yields, also the zero value of a closed channel. *)
Definition sseHandler_msg (ch : Chan.t) (w : ResponseWriter)
  : option (Chan.t * ResponseWriter) :=
  match Chan.recv ch with
  | Some (msg, ch') => Some (ch', dispatch msg w)
  | None => None
  end.

(** [n] iterations of the dispatcher loop, as long as the receive does
    not block. *)
Fixpoint sseHandler_loop (n : nat) (ch : Chan.t) (w : ResponseWriter)
  : option (Chan.t * ResponseWriter) :=
  match n with
  | O => Some (ch, w)
  | S n =>
      match sseHandler_msg ch w with
      | Some (ch', w') => sseHandler_loop n ch' w'
      | None => None
      end
  end.

Inductive Event :=
| Connect (client : nat)    (* a handler allocates and registers its client *)
| Cmd (cmd : Command)
| Receive (client : nat).

(** Executions of the coordinator interleaved with the dispatchers; a
    panic in [clientManager] ends the execution (nothing recovers it). *)
Inductive exec : State -> list Event -> Result Panic State -> Prop :=
| exec_done st : exec st [] (Ok st)
| exec_connect st client st' es r :
    chans st !! client = None ->
    clientManager_step [] (AddClient client) (new_client client st) = Ok st' ->
    exec st' es r ->
    exec st (Connect client :: es) r
| exec_cmd st order cmd st' es r :
    range_order st order ->
    clientManager_step order cmd st = Ok st' ->
    exec st' es r ->
    exec st (Cmd cmd :: es) r
| exec_panic st order cmd p es :
    range_order st order ->
    clientManager_step order cmd st = Err p ->
    exec st (Cmd cmd :: es) (Err p)
| exec_receive st client es r :
    exec (receive client st) es r ->
    exec st (Receive client :: es) r.

(** The executable coordinator, ranging over the registry in the order
    of [elements]. *)
Fixpoint clientManager (cmds : list Command) (st : State) : Result Panic State :=
  match cmds with
  | [] => Ok st
  | cmd :: cmds =>
      match clientManager_step (elements (dom (clients st))) cmd st with
      | Ok st' => clientManager cmds st'
      | Err p => Err p
      end
  end.

(** Every queue holds at most its capacity, which is 10. *)
Definition bounded (st : State) : Prop :=
  forall client ch, chans st !! client = Some ch ->
    (Chan.len ch <= Chan.cap ch)%nat /\ Chan.cap ch = capacity.

(** Registered clients are allocated and their channel is open. *)
Definition registry_open (st : State) : Prop :=
  forall client, is_Some (clients st !! client) ->
    exists ch, chans st !! client = Some ch /\ Chan.closed ch = false.

(** What one broadcast of [msg] does to the channel of a registered
    client: the message is appended when there is room, the channel is
    closed otherwise. *)
Definition offered (msg : string) (ch : Chan.t) : Chan.t :=
  if (Chan.len ch <? Chan.cap ch)%nat
  then {| Chan.cap := Chan.cap ch; Chan.buf := Chan.buf ch ++ [msg];
          Chan.closed := Chan.closed ch |}
  else {| Chan.cap := Chan.cap ch; Chan.buf := Chan.buf ch;
          Chan.closed := true |}.

(** ... and to its registration. *)
Definition kept (ch : Chan.t) : bool := (Chan.len ch <? Chan.cap ch)%nat.

(** The events of forwarding: connections arriving, broadcasts, and
    dispatchers taking messages. *)
Definition forwarding (e : Event) : Prop :=
  match e with
  | Connect _ | Cmd (Broadcast _) | Receive _ => True
  | Cmd (AddClient _) | Cmd (RemoveClient _) => False
  end.

(** Once the channel of a client is closed it stays closed. *)
Definition is_closed (client : nat) (st : State) : Prop :=
  exists ch, chans st !! client = Some ch /\ Chan.closed ch = true.

End Shared.

(** ** Sample instances of the parameters, used to run the model *)
Module Sample.

(** A keyed tag that shows its key and its message. *)
Definition mac (h : Jwt.Hash) (key text : string) : string :=
  key +:+ "/" +:+ text.

Definition registered (exp nbf : option Z) : Jwt.RegisteredClaims :=
  {| Jwt.Issuer := ""; Jwt.Subject := ""; Jwt.Audience := [];
     Jwt.ExpiresAt := exp; Jwt.NotBefore := nbf; Jwt.IssuedAt := None;
     Jwt.ID := "" |}.

Definition segments (alg : string) (uid : Z) (exp nbf : option Z)
    (key : string) : Jwt.Segments SSETokenClaims :=
  {| Jwt.alg := Some alg;
     Jwt.claims := {| UserID := uid; RegisteredClaims := registered exp nbf |};
     Jwt.signingString := "header.claims";
     Jwt.signature := Some (mac Jwt.SHA256 key "header.claims") |}.

(** A codec that knows five tokens; every other string is malformed. *)
Definition decode (s : string) : option (Jwt.Segments SSETokenClaims) :=
  if String.eqb s "valid" then
    Some (segments "HS256" 42 (Some 2000) None "secret")
  else if String.eqb s "early" then
    Some (segments "HS256" 42 (Some 2000) (Some 1500) "secret")
  else if String.eqb s "expired" then
    Some (segments "HS256" 42 (Some 500) None "secret")
  else if String.eqb s "forged" then
    Some (segments "HS256" 42 (Some 2000) None "other")
  else if String.eqb s "rs256" then
    Some (segments "RS256" 42 (Some 2000) None "secret")
  else None.

Definition now : Z := 1000.

Definition env : gmap string string :=
  {[ "GO_SSE_SIDECAR_REDIS_URL" := "redis://localhost:6379/0";
     "GO_SSE_SIDECAR_TOKEN" := "secret" ]}.

Definition request (token : string) : Request :=
  {| query := {[ "ssetoken" := [token] ]} |}.

Definition writer : ResponseWriter :=
  {| header := ∅; status := None; body := ""; flusher := true |}.

(** A URL parser that accepts every string and a bus that answers. *)
Definition ParseURL (url : string) : option string := Some url.
Definition Ping (opts : string) : bool := true.

End Sample.

(** ** Running the shared variant on small registries *)
Module SharedSample.
Import Shared.

Definition full_queue : Chan.t :=
  {| Chan.cap := 10; Chan.buf := replicate 10 "m"; Chan.closed := false |}.

(** Client 1 has a full queue, client 2 an empty one. *)
Definition two_clients : State :=
  {| chans := {[ 1%nat := full_queue; 2%nat := Chan.make capacity ]};
     clients := {[ 1%nat := true; 2%nat := true ]} |}.

Definition one_client : State :=
  {| chans := {[ 1%nat := full_queue ]}; clients := {[ 1%nat := true ]} |}.

(** A slow client: it connects, eleven messages are broadcast while it
    reads none, then it disconnects. *)
Definition slow_client_trace : list Command :=
  AddClient 1 :: replicate 11 (Broadcast "m") ++ [RemoveClient 1].
End SharedSample.

(** * Properties *)

(** ** Token verification *)

Section VerifyFacts.
Variable decode : string -> option (Jwt.Segments SSETokenClaims).
Variable mac : Jwt.Hash -> string -> string -> string.

(** [verifySseToken] succeeds exactly on the tokens that decode, name an
    HMAC method, carry the tag of the signed text under [secret] and pass
    the claims validation; it then returns the decoded claims. *)
Lemma verifySseToken_Ok now tokenString secret c :
  verifySseToken decode mac now tokenString secret = Ok c <->
  exists seg a h,
    decode tokenString = Some seg /\
    Jwt.alg seg = Some a /\
    Jwt.GetSigningMethod a = Some (Jwt.SigningMethodHMAC h) /\
    Jwt.signature seg = Some (mac h secret (Jwt.signingString seg)) /\
    Jwt.Validate (RegisteredClaims (Jwt.claims seg)) now = [] /\
    c = Jwt.claims seg.
Proof.
  unfold verifySseToken, Jwt.ParseWithClaims, Jwt.ParseUnverified, keyFunc.
  split.
  - destruct (decode tokenString) as [seg|] eqn:Hd; [|discriminate].
    destruct (Jwt.alg seg) as [a|] eqn:Ha; [|discriminate].
    destruct (Jwt.GetSigningMethod a) as [m|] eqn:Hm; [|discriminate].
    destruct (Jwt.signature seg) as [sig|] eqn:Hs; [|discriminate].
    destruct m as [h| | | | |]; simpl; try discriminate.
    case_bool_decide as Hsig; [|discriminate].
    destruct (Jwt.Validate _ now) eqn:Hv; [|discriminate].
    simpl. intros [= <-]. exists seg, a, h. subst sig. auto 10.
  - intros (seg & a & h & -> & -> & -> & -> & Hv & ->). simpl.
    rewrite bool_decide_true by reflexivity. rewrite Hv. reflexivity.
Qed.

Lemma verifySseToken_not_Ok now tokenString secret :
  (forall c, verifySseToken decode mac now tokenString secret <> Ok c) ->
  exists err, verifySseToken decode mac now tokenString secret = Err err.
Proof.
  destruct (verifySseToken _ _ _ _ _) as [c|e]; [|eauto].
  intros H. destruct (H c). reflexivity.
Qed.
End VerifyFacts.

(** C3: a token signed with another secret than the configured one (the
    tag it carries is the one of the other secret and not the one of the
    configured secret), a token whose header names a signing method that is
    not HMAC, and a token whose expiry instant is in the past are all
    refused: [verifySseToken] returns an error and no claims. *)
Theorem verifySseToken_rejects decode mac now tokenString secret seg :
  decode tokenString = Some seg ->
  signed_with_other_secret mac seg secret \/ declares_non_HMAC seg \/
    expired seg now ->
  exists err, verifySseToken decode mac now tokenString secret = Err err.
Proof.
  intros Hd Hbad. apply verifySseToken_not_Ok.
  intros c (seg' & a & h & Hd' & Ha & Hm & Hs & Hv & _)%verifySseToken_Ok.
  rewrite Hd in Hd'. injection Hd' as <-.
  destruct Hbad as [(a' & h' & other & Ha' & Hm' & _ & Hs' & Hne)
                   |[(a' & Ha' & Hm') | (exp & He & Hlt)]].
  - rewrite Ha in Ha'. injection Ha' as <-.
    rewrite Hm in Hm'. injection Hm' as <-.
    rewrite Hs in Hs'. injection Hs' as Heq. congruence.
  - rewrite Ha in Ha'. injection Ha' as <-. exact (Hm' h Hm).
  - unfold Jwt.Validate, Jwt.verifyExpiresAt in Hv. rewrite He in Hv.
    destruct (Z.ltb_spec now exp); [lia|discriminate].
Qed.

Lemma verifySseToken_rejects_witness :
  (exists err, verifySseToken Sample.decode Sample.mac Sample.now
                 "forged" "secret" = Err err) /\
  (exists err, verifySseToken Sample.decode Sample.mac Sample.now
                 "rs256" "secret" = Err err) /\
  (exists err, verifySseToken Sample.decode Sample.mac Sample.now
                 "expired" "secret" = Err err).
Proof.
  split; [|split].
  - apply (verifySseToken_rejects Sample.decode Sample.mac Sample.now
             "forged" "secret" _ eq_refl).
    left. exists "HS256", Jwt.SHA256, "other".
    repeat split; [discriminate|discriminate].
  - apply (verifySseToken_rejects Sample.decode Sample.mac Sample.now
             "rs256" "secret" _ eq_refl).
    right; left. exists "RS256". split; [reflexivity|discriminate].
  - apply (verifySseToken_rejects Sample.decode Sample.mac Sample.now
             "expired" "secret" _ eq_refl).
    right; right. exists 500. split; [reflexivity|reflexivity].
Defined.

(** C4 as stated fails: the token ["early"] is well formed, signed with
    the configured secret and expires at 2000, after the current instant
    1000, but its [nbf] claim is 1500 and the validator refuses it. *)
Lemma verifySseToken_accepts_counterexample :
  Sample.decode "early"
    = Some (Sample.segments "HS256" 42 (Some 2000) (Some 1500) "secret") /\
  signed_and_unexpired Sample.mac
    (Sample.segments "HS256" 42 (Some 2000) (Some 1500) "secret")
    "secret" Sample.now /\
  verifySseToken Sample.decode Sample.mac Sample.now "early" "secret"
    = Err (TokenParseError
             (Jwt.ErrTokenInvalidClaims [Jwt.ErrTokenNotValidYet])).
Proof.
  split; [reflexivity|split; [|reflexivity]].
  exists "HS256", Jwt.SHA256, 2000. repeat split.
Qed.

(** C4, amended: a well-formed token signed (HMAC) with the configured
    secret, whose expiry is in the future and whose not-before instant, if
    it has one, is not in the future, is accepted, and the [UserID] of the
    returned claims is the one the token carries. *)
Theorem verifySseToken_accepts decode mac now tokenString secret seg :
  decode tokenString = Some seg ->
  signed_and_unexpired mac seg secret now ->
  not_before_reached seg now ->
  exists c, verifySseToken decode mac now tokenString secret = Ok c /\
            UserID c = UserID (Jwt.claims seg).
Proof.
  intros Hd (a & h & exp & Ha & Hm & Hs & He & Hlt) Hnbf.
  exists (Jwt.claims seg). split; [|reflexivity].
  apply verifySseToken_Ok. exists seg, a, h. repeat split; try assumption.
  unfold Jwt.Validate, Jwt.verifyExpiresAt, Jwt.verifyNotBefore.
  unfold not_before_reached in Hnbf. rewrite He.
  destruct (Z.ltb_spec now exp); [|lia].
  destruct (Jwt.NotBefore _) as [nbf|]; [|reflexivity].
  destruct (Z.ltb_spec now nbf); [lia|reflexivity].
Qed.

Lemma verifySseToken_accepts_witness :
  exists c, verifySseToken Sample.decode Sample.mac Sample.now
              "valid" "secret" = Ok c /\ UserID c = 42.
Proof.
  apply (verifySseToken_accepts Sample.decode Sample.mac Sample.now
           "valid" "secret" _ eq_refl).
  - exists "HS256", Jwt.SHA256, 2000. repeat split.
  - exact I.
Defined.

(** ** Refusing a request *)

(** In [main.go] a request whose token fails verification gets 401 and
    nothing is allocated for it. *)
Lemma PerUser_sseHandler_unauthorized decode mac (Options : Type)
    (ParseURL : string -> option Options) env now w r err :
  verifySseToken decode mac now (Query_Get (query r) "ssetoken")
    (Getenv env "GO_SSE_SIDECAR_TOKEN") = Err err ->
  status w = None ->
  let s := PerUser.sseHandler decode mac Options ParseURL env now w r in
  sent_status (resp s) = StatusUnauthorized /\
  outcome s = Returned /\
  filter (fun e => allocates e = true) (effects s) = [].
Proof.
  intros Hv Hw. unfold PerUser.sseHandler. rewrite Hv. simpl.
  unfold sent_status. simpl. rewrite Hw. auto.
Qed.

(** C1 fails in the shared variant: when the token fails verification its
    [sseHandler] returns without writing a status or a body, so the server
    answers 200 with an empty body, not 401.  (Nothing is allocated there
    either.) *)
Theorem Shared_sseHandler_unauthorized_sends_200 decode mac env now w r err :
  verifySseToken decode mac now (Query_Get (query r) "ssetoken")
    (Getenv env "GO_SSE_SIDECAR_TOKEN") = Err err ->
  status w = None ->
  let s := Shared.sseHandler decode mac env now w r in
  status (resp s) = None /\
  sent_status (resp s) = 200 /\
  sent_status (resp s) <> StatusUnauthorized /\
  body (resp s) = body w /\
  outcome s = Returned /\
  filter (fun e => allocates e = true) (effects s) = [].
Proof.
  intros Hv Hw. unfold Shared.sseHandler. rewrite Hv. simpl.
  unfold sent_status. simpl. rewrite Hw. simpl. repeat split. discriminate.
Qed.

Lemma Shared_sseHandler_unauthorized_sends_200_witness :
  let s := Shared.sseHandler Sample.decode Sample.mac Sample.env Sample.now
             Sample.writer (Sample.request "expired") in
  status (resp s) = None /\
  sent_status (resp s) = 200 /\
  sent_status (resp s) <> StatusUnauthorized /\
  body (resp s) = "" /\
  outcome s = Returned /\
  filter (fun e => allocates e = true) (effects s) = [].
Proof.
  apply (Shared_sseHandler_unauthorized_sends_200 Sample.decode Sample.mac
           Sample.env Sample.now Sample.writer (Sample.request "expired")
           (TokenParseError (Jwt.ErrTokenInvalidClaims [Jwt.ErrTokenExpired]))).
  - vm_compute. reflexivity.
  - reflexivity.
Defined.

(** ** Start-up *)

(** C2 as stated fails for the signing secret: with the bus URL set and no
    [GO_SSE_SIDECAR_TOKEN], [main] reaches [http.ListenAndServe]. *)
Lemma main_without_secret_counterexample :
  let env : gmap string string :=
    {[ "GO_SSE_SIDECAR_REDIS_URL" := "redis://localhost:6379/0" ]} in
  Getenv (godotenv_Load env ∅) "GO_SSE_SIDECAR_TOKEN" = "" /\
  main string Sample.ParseURL Sample.Ping env ∅ = ListenAndServe ":5687".
Proof. vm_compute. split; reflexivity. Qed.

(** C2, amended: when the bus URL is absent from the environment, [main]
    exits through [log.Fatal] before it serves, whatever the other
    variables are. *)
Theorem main_without_url_exits (Options : Type)
    (ParseURL : string -> option Options) (Ping : Options -> bool)
    (env dotenv : gmap string string) :
  Getenv (godotenv_Load env dotenv) "GO_SSE_SIDECAR_REDIS_URL" = "" ->
  main Options ParseURL Ping env dotenv
    = Exited "GO_SSE_SIDECAR_REDIS_URL not set".
Proof.
  intros H. unfold main, getRedisClient. rewrite H. reflexivity.
Qed.

Lemma main_without_url_exits_witness :
  main string Sample.ParseURL Sample.Ping
    {[ "GO_SSE_SIDECAR_TOKEN" := "secret" ]} ∅
    = Exited "GO_SSE_SIDECAR_REDIS_URL not set".
Proof.
  apply (main_without_url_exits string Sample.ParseURL Sample.Ping
           {[ "GO_SSE_SIDECAR_TOKEN" := "secret" ]} ∅).
  vm_compute. reflexivity.
Defined.

(** ** The per-connection variant: queue bound, order, frames *)

Lemma append_assoc (s1 s2 s3 : string) : (s1 +:+ s2) +:+ s3 = s1 +:+ s2 +:+ s3.
Proof.
  induction s1 as [|a s1 IH]; [reflexivity|].
  change (String a ((s1 +:+ s2) +:+ s3) = String a (s1 +:+ s2 +:+ s3)).
  by rewrite IH.
Qed.

Lemma append_nil_r (s : string) : s +:+ "" = s.
Proof.
  induction s as [|a s IH]; [reflexivity|].
  change (String a (s +:+ "") = String a s). by rewrite IH.
Qed.

Lemma frames_snoc msgs msg : frames (msgs ++ [msg]) = frames msgs +:+ frame msg.
Proof.
  induction msgs as [|m msgs IH].
  - apply append_nil_r.
  - change (frame m +:+ frames (msgs ++ [msg])
            = (frame m +:+ frames msgs) +:+ frame msg).
    by rewrite IH, append_assoc.
Qed.

Lemma body_dispatch msg w : body (dispatch msg w) = body w +:+ frame msg.
Proof. reflexivity. Qed.

Module PerUserFacts.
Import PerUser.

Lemma inv_open_conn uid w0 subscribed : inv uid w0 (open uid w0 subscribed).
Proof.
  split; simpl; try reflexivity; try done.
  - unfold capacity, Chan.len. simpl. lia.
  - by rewrite append_nil_r.
Qed.

Lemma inv_forward uid w0 c payload :
  inv uid w0 c ->
  exists c', subscribeToUserChannel_msg payload c = Ok c' /\ inv uid w0 c'.
Proof.
  intros [Hu Ho Hc Hl Hs He Hn Hb].
  unfold subscribeToUserChannel_msg, Chan.try_send. rewrite Ho, Hc.
  destruct (Nat.ltb_spec (Chan.len (queue c)) capacity) as [Hlt|Hge].
  - eexists; split; [reflexivity|].
    split; simpl; try assumption; try reflexivity.
    + unfold Chan.len in *. simpl. rewrite length_app. simpl. lia.
    + rewrite (assoc (++)). by apply sublist_app.
    + intros Hd. by rewrite (assoc (++)), He.
    + unfold Chan.len in *. simpl. rewrite !length_app. simpl. lia.
  - eexists; split; [reflexivity|].
    split; simpl; try assumption.
    + by apply sublist_inserts_r.
    + intros Hd. by destruct (dropped c).
    + rewrite !length_app. simpl. lia.
Qed.

Lemma inv_deliver uid w0 c : inv uid w0 c -> inv uid w0 (sseHandler_msg c).
Proof.
  intros [Hu Ho Hc Hl Hs He Hn Hb].
  unfold sseHandler_msg, Chan.recv.
  destruct (Chan.buf (queue c)) as [|m rest] eqn:Hbuf.
  - rewrite Ho. split; try assumption; by rewrite Hbuf.
  - unfold Chan.len in *. rewrite ?Hbuf in *. simpl in *.
    split; simpl; try assumption.
    + unfold Chan.len. simpl. lia.
    + by rewrite <- (assoc (++)).
    + rewrite <- (assoc (++)). exact He.
    + unfold Chan.len. simpl. rewrite length_app. simpl. lia.
    + by rewrite frames_snoc, <- append_assoc, <- Hb.
Qed.

Lemma inv_step uid w0 c e :
  inv uid w0 c -> exists c', step c e = Ok c' /\ inv uid w0 c'.
Proof.
  intros Hi. destruct e; simpl.
  - destruct (bridge c && _); [by apply inv_forward|eauto].
  - eexists; split; [reflexivity|].
    destruct (dispatcher c); [by apply inv_deliver|done].
  - eexists; split; [reflexivity|]. by destruct Hi.
  - eexists; split; [reflexivity|]. by destruct Hi.
  - eexists; split; [reflexivity|]. by destruct Hi.
Qed.

Lemma inv_run uid w0 es c :
  inv uid w0 c -> exists c', run c es = Ok c' /\ inv uid w0 c'.
Proof.
  revert c. induction es as [|e es IH]; intros c Hi; simpl; [eauto|].
  destruct (inv_step uid w0 c e Hi) as (c1 & -> & Hi1). by apply IH.
Qed.

(** At a full queue the bridge drops the message and goes on. *)
Lemma full_queue_drops c payload :
  Chan.closed (queue c) = false ->
  Chan.len (queue c) = Chan.cap (queue c) ->
  exists c', subscribeToUserChannel_msg payload c = Ok c' /\
    queue c' = queue c /\ dropped c' = dropped c ++ [payload] /\
    bridge c' = bridge c /\ written c' = written c.
Proof.
  intros Ho Hfull. unfold subscribeToUserChannel_msg, Chan.try_send.
  rewrite Ho, Hfull, Nat.ltb_irrefl. eauto 10.
Qed.
End PerUserFacts.

(** ** The shared variant: what a broadcast does to the registry *)
Module SharedFacts.
Import Shared.

Lemma send_or_evict_open msg client st ch :
  chans st !! client = Some ch ->
  Chan.closed ch = false ->
  send_or_evict msg client st
    = Ok {| chans := <[client:=offered msg ch]> (chans st);
            clients := if kept ch then clients st
                       else delete client (clients st) |}.
Proof.
  intros Hch Hopen.
  unfold send_or_evict, remove, Chan.try_send, Chan.close, offered, kept.
  rewrite Hch, Hopen.
  by destruct (Chan.len ch <? Chan.cap ch)%nat.
Qed.

Lemma range_clients_spec msg order : forall st,
  NoDup order ->
  (forall client, client ∈ order ->
     is_Some (clients st !! client) /\
     exists ch, chans st !! client = Some ch /\ Chan.closed ch = false) ->
  exists st',
    range_clients order msg st = Ok st' /\
    (forall client, client ∉ order ->
       chans st' !! client = chans st !! client /\
       clients st' !! client = clients st !! client) /\
    (forall client ch, client ∈ order -> chans st !! client = Some ch ->
       chans st' !! client = Some (offered msg ch) /\
       clients st' !! client
         = if kept ch then clients st !! client else None).
Proof.
  induction order as [|c rest IH]; intros st Hnd Hreg.
  - exists st. split; [reflexivity|]. split; [done|].
    intros client ch Hin. by apply elem_of_nil in Hin.
  - apply NoDup_cons in Hnd as [Hc Hnd].
    destruct (Hreg c) as (_ & ch & Hch & Hopen); [apply elem_of_cons; auto|].
    simpl. rewrite (send_or_evict_open msg c st ch Hch Hopen).
    set (st1 := {| chans := <[c:=offered msg ch]> (chans st);
                   clients := if kept ch then clients st
                              else delete c (clients st) |}).
    assert (Hother : forall client, client <> c ->
              chans st1 !! client = chans st !! client /\
              clients st1 !! client = clients st !! client).
    { intros client Hne. subst st1. simpl. split.
      - by rewrite lookup_insert_ne.
      - destruct (kept ch); [done|]. by rewrite lookup_delete_ne. }
    destruct (IH st1 Hnd) as (st' & Hrun & Hout & Hin).
    { intros client Hcl. assert (client <> c) by (intros ->; done).
      destruct (Hother client) as [-> ->]; [done|].
      apply Hreg. apply elem_of_cons; auto. }
    exists st'. split; [exact Hrun|]. split.
    + intros client Hnot. apply not_elem_of_cons in Hnot as [Hne Hnot].
      destruct (Hout client Hnot) as [-> ->]. by apply Hother.
    + intros client ch' [->|Hcl]%elem_of_cons Hch'.
      * rewrite Hch in Hch'. injection Hch' as <-.
        destruct (Hout c Hc) as [-> ->]. subst st1. simpl.
        rewrite lookup_insert_eq. split; [done|].
        destruct (kept ch); [done|]. by rewrite lookup_delete_eq.
      * assert (client <> c) by (intros ->; done).
        destruct (Hother client) as [Hch1 Hcl1]; [done|].
        destruct (Hin client ch' Hcl) as [-> ->]; [by rewrite Hch1|].
        by rewrite Hcl1.
Qed.

Lemma range_order_NoDup st order : range_order st order -> NoDup order.
Proof. intros ->. apply NoDup_elements. Qed.

Lemma range_order_elem st order client :
  range_order st order -> client ∈ order <-> is_Some (clients st !! client).
Proof. intros ->. by rewrite elem_of_elements, elem_of_dom. Qed.

(** A broadcast on a registry whose channels are open does not panic,
    whatever the order of the range loop; it offers the message to every
    registered client and to no other. *)
Lemma broadcast_spec msg order st :
  registry_open st ->
  range_order st order ->
  exists st',
    clientManager_step order (Broadcast msg) st = Ok st' /\
    (forall client, clients st !! client = None ->
       chans st' !! client = chans st !! client /\
       clients st' !! client = None) /\
    (forall client ch, is_Some (clients st !! client) ->
       chans st !! client = Some ch ->
       chans st' !! client = Some (offered msg ch) /\
       clients st' !! client
         = if kept ch then clients st !! client else None).
Proof.
  intros Hopen Hord.
  destruct (range_clients_spec msg order st) as (st' & Hrun & Hout & Hin).
  { by eapply range_order_NoDup. }
  { intros client Hcl%(range_order_elem st); [|done]. split; [done|].
    by apply Hopen. }
  exists st'. split; [exact Hrun|]. split.
  - intros client Hnone. destruct (Hout client) as [-> ->]; [|done].
    rewrite (range_order_elem st); [|done]. rewrite Hnone. by intros [? ?].
  - intros client ch Hsome. apply Hin. by apply (range_order_elem st).
Qed.
End SharedFacts.

Module SharedInvariants.
Import Shared SharedFacts.

Lemma offered_bounded msg ch :
  (Chan.len ch <= Chan.cap ch)%nat ->
  (Chan.len (offered msg ch) <= Chan.cap (offered msg ch))%nat /\
  Chan.cap (offered msg ch) = Chan.cap ch.
Proof.
  intros Hle. unfold offered.
  destruct (Nat.ltb_spec (Chan.len ch) (Chan.cap ch)); simpl; [|done].
  unfold Chan.len in *. simpl. rewrite length_app. simpl. lia.
Qed.

Lemma broadcast_preserves msg order st :
  bounded st -> registry_open st -> range_order st order ->
  exists st', clientManager_step order (Broadcast msg) st = Ok st' /\
              bounded st' /\ registry_open st'.
Proof.
  intros Hb Hopen Hord.
  destruct (broadcast_spec msg order st Hopen Hord) as (st' & Hrun & Hout & Hin).
  exists st'. split; [exact Hrun|]. split.
  - intros client ch' Hch'.
    destruct (clients st !! client) as [b|] eqn:Hcl.
    + destruct (Hopen client) as (ch & Hch & _); [by rewrite Hcl|].
      destruct (Hin client ch) as [Hch1 _]; [by rewrite Hcl|done|].
      rewrite Hch1 in Hch'. injection Hch' as <-.
      destruct (Hb client ch Hch) as [Hle Hcap].
      destruct (offered_bounded msg ch Hle) as [? Hc]. split; congruence.
    + destruct (Hout client Hcl) as [Hch1 _]. rewrite Hch1 in Hch'.
      by apply (Hb client).
  - intros client Hsome.
    destruct (clients st !! client) as [b|] eqn:Hcl.
    + destruct (Hopen client) as (ch & Hch & Hcl0); [by rewrite Hcl|].
      destruct (Hin client ch) as [Hch1 Hcl1]; [by rewrite Hcl|done|].
      exists (offered msg ch). split; [done|].
      rewrite Hcl1 in Hsome. unfold offered, kept in *.
      destruct (Chan.len ch <? Chan.cap ch)%nat; [done|].
      by destruct Hsome.
    + destruct (Hout client Hcl) as [_ Hcl1]. rewrite Hcl1 in Hsome.
      by destruct Hsome.
Qed.

Lemma receive_preserves client st :
  bounded st -> registry_open st ->
  bounded (receive client st) /\ registry_open (receive client st).
Proof.
  intros Hb Hopen. unfold receive.
  destruct (chans st !! client) as [ch|] eqn:Hch; simpl; [|done].
  unfold Chan.recv.
  destruct (Chan.buf ch) as [|m rest] eqn:Hbuf.
  { destruct (Chan.closed ch) eqn:Hcl; [|done]. split.
    - intros c ch' Hc. simpl in Hc.
      destruct (decide (c = client)) as [->|Hne].
      + rewrite lookup_insert_eq in Hc. injection Hc as <-. by apply (Hb client).
      + rewrite lookup_insert_ne in Hc by done. by apply (Hb c).
    - intros c Hsome. simpl in *. destruct (Hopen c Hsome) as (ch' & Hc & Hcl').
      destruct (decide (c = client)) as [->|Hne].
      + congruence.
      + exists ch'. by rewrite lookup_insert_ne. }
  destruct (Hb client ch Hch) as [Hle Hcap]. split.
  - intros c ch' Hc. simpl in Hc.
    destruct (decide (c = client)) as [->|Hne].
    + rewrite lookup_insert_eq in Hc. injection Hc as <-.
      unfold Chan.len in *. rewrite Hbuf in Hle. simpl in *. split; [lia|done].
    + rewrite lookup_insert_ne in Hc by done. by apply (Hb c).
  - intros c Hsome. simpl in *. destruct (Hopen c Hsome) as (ch' & Hc & Hcl').
    destruct (decide (c = client)) as [->|Hne].
    + rewrite lookup_insert_eq. eexists; split; [done|].
      simpl. congruence.
    + exists ch'. by rewrite lookup_insert_ne.
Qed.

Lemma connect_preserves client st :
  bounded st -> registry_open st ->
  exists st', clientManager_step [] (AddClient client) (new_client client st)
                = Ok st' /\
              bounded st' /\ registry_open st'.
Proof.
  intros Hb Hopen. eexists; split; [reflexivity|]. split.
  - intros c ch Hc. simpl in Hc.
    destruct (decide (c = client)) as [->|Hne].
    + rewrite lookup_insert_eq in Hc. injection Hc as <-.
      unfold Chan.len. simpl. split; [lia|done].
    + rewrite lookup_insert_ne in Hc by done. by apply (Hb c).
  - intros c Hsome. simpl in *.
    destruct (decide (c = client)) as [->|Hne].
    + rewrite lookup_insert_eq. by eexists.
    + rewrite lookup_insert_ne in Hsome by done.
      rewrite lookup_insert_ne by done. by apply Hopen.
Qed.

Lemma exec_forwarding st es r :
  exec st es r -> Forall forwarding es ->
  bounded st -> registry_open st ->
  exists st', r = Ok st' /\ bounded st' /\ registry_open st'.
Proof.
  induction 1 as [st|st client st' es r Hfresh Hstep _ IH
                 |st order cmd st' es r Hord Hstep _ IH
                 |st order cmd p es Hord Hstep
                 |st client es r _ IH];
    intros Hall Hb Hopen.
  - eauto.
  - apply Forall_cons in Hall as [_ Hall].
    destruct (connect_preserves client st Hb Hopen) as (st1 & Hs & Hb1 & Ho1).
    rewrite Hs in Hstep. injection Hstep as <-. by apply IH.
  - apply Forall_cons in Hall as [Hf Hall].
    destruct cmd as [c|c|msg]; try done.
    destruct (broadcast_preserves msg order st Hb Hopen Hord)
      as (st1 & Hs & Hb1 & Ho1).
    rewrite Hs in Hstep. injection Hstep as <-. by apply IH.
  - apply Forall_cons in Hall as [Hf Hall].
    destruct cmd as [c|c|msg]; try done.
    destruct (broadcast_preserves msg order st Hb Hopen Hord)
      as (st1 & Hs & _).
    rewrite Hs in Hstep. discriminate.
  - apply Forall_cons in Hall as [_ Hall].
    destruct (receive_preserves client st Hb Hopen) as [Hb1 Ho1]. by apply IH.
Qed.

(** The bound on the queues is kept by every step that does not panic,
    whatever the state of the registry. *)
Lemma bounded_insert st client ch registry :
  bounded st ->
  (Chan.len ch <= Chan.cap ch)%nat -> Chan.cap ch = capacity ->
  bounded {| chans := <[client:=ch]> (chans st); clients := registry |}.
Proof.
  intros Hb Hle Hcap c ch' Hc. simpl in Hc.
  destruct (decide (c = client)) as [->|Hne].
  - rewrite lookup_insert_eq in Hc. by injection Hc as <-.
  - rewrite lookup_insert_ne in Hc by done. by apply (Hb c).
Qed.

Lemma remove_bounded client st st' :
  bounded st -> remove client st = Ok st' -> bounded st'.
Proof.
  intros Hb. unfold remove, Chan.close.
  destruct (chans st !! client) as [ch|] eqn:Hch; [|done].
  destruct (Chan.closed ch); [done|]. intros [= <-].
  destruct (Hb client ch Hch). by apply bounded_insert.
Qed.

Lemma send_or_evict_bounded msg client st st' :
  bounded st -> send_or_evict msg client st = Ok st' -> bounded st'.
Proof.
  intros Hb. unfold send_or_evict.
  destruct (chans st !! client) as [ch|] eqn:Hch; [|done].
  destruct (Hb client ch Hch) as [Hle Hcap].
  unfold Chan.try_send. destruct (Chan.closed ch); [done|].
  destruct (Nat.ltb_spec (Chan.len ch) (Chan.cap ch)) as [Hlt|Hge].
  - intros [= <-]. apply bounded_insert; [done| |done].
    unfold Chan.len in *. simpl. rewrite length_app. simpl. lia.
  - by apply remove_bounded.
Qed.

Lemma range_clients_bounded msg order : forall st st',
  bounded st -> range_clients order msg st = Ok st' -> bounded st'.
Proof.
  induction order as [|c rest IH]; intros st st' Hb; simpl.
  - by intros [= <-].
  - destruct (send_or_evict msg c st) as [st1|p] eqn:Hs; [|done].
    apply IH. by eapply send_or_evict_bounded.
Qed.

Lemma step_bounded order cmd st st' :
  bounded st -> clientManager_step order cmd st = Ok st' -> bounded st'.
Proof.
  intros Hb. destruct cmd as [c|c|msg]; simpl.
  - intros [= <-]. exact Hb.
  - by apply remove_bounded.
  - by apply range_clients_bounded.
Qed.

Lemma receive_bounded client st : bounded st -> bounded (receive client st).
Proof.
  intros Hb. unfold receive.
  destruct (chans st !! client) as [ch|] eqn:Hch; simpl; [|done].
  destruct (Hb client ch Hch) as [Hle Hcap]. unfold Chan.recv.
  destruct (Chan.buf ch) as [|m rest] eqn:Hbuf.
  - destruct (Chan.closed ch); [|done]. by apply bounded_insert.
  - apply bounded_insert; [done| |done].
    unfold Chan.len in *. rewrite Hbuf in Hle. simpl in *. lia.
Qed.

Lemma exec_bounded st es st' :
  exec st es (Ok st') -> bounded st -> bounded st'.
Proof.
  remember (Ok st') as r eqn:Hr. intros Hexec. revert Hr.
  induction Hexec as [st|st client st1 es r Hfresh Hstep _ IH
                     |st order cmd st1 es r Hord Hstep _ IH
                     |st order cmd p es Hord Hstep
                     |st client es r _ IH];
    intros Hr Hb.
  - by injection Hr as <-.
  - apply IH; [done|]. injection Hstep as <-.
    apply bounded_insert; [done| |done]. unfold Chan.len. simpl. lia.
  - apply IH; [done|]. by eapply step_bounded.
  - done.
  - apply IH; [done|]. by apply receive_bounded.
Qed.

Lemma init_bounded : bounded init.
Proof. intros client ch Hch. simpl in Hch. by rewrite lookup_empty in Hch. Qed.

Lemma init_registry_open : registry_open init.
Proof. intros client [b Hb]. simpl in Hb. by rewrite lookup_empty in Hb. Qed.

Lemma remove_closed_panics client st :
  is_closed client st -> remove client st = Err CloseOfClosedChannel.
Proof.
  intros (ch & Hch & Hcl). unfold remove, Chan.close. by rewrite Hch, Hcl.
Qed.

Lemma range_clients_closed client msg order : forall st st',
  is_closed client st -> range_clients order msg st = Ok st' ->
  is_closed client st'.
Proof.
  induction order as [|c rest IH]; intros st st' Hcl; simpl.
  - by intros [= <-].
  - destruct (send_or_evict msg c st) as [st1|p] eqn:Hs; [|done].
    apply IH. revert Hs. unfold send_or_evict, remove.
    destruct Hcl as (ch & Hch & Hcl).
    destruct (decide (c = client)) as [->|Hne].
    + rewrite Hch. unfold Chan.try_send. by rewrite Hcl.
    + destruct (chans st !! c) as [ch'|]; [|done].
      destruct (Chan.try_send ch' msg) as [ch''| |]; [| |done].
      * intros [= <-]. exists ch. simpl. by rewrite lookup_insert_ne.
      * destruct (Chan.close ch') as [ch''|]; [|done].
        intros [= <-]. exists ch. simpl. by rewrite lookup_insert_ne.
Qed.

Lemma step_closed client order cmd st st' :
  is_closed client st -> clientManager_step order cmd st = Ok st' ->
  is_closed client st'.
Proof.
  intros Hcl. destruct cmd as [c|c|msg]; simpl.
  - by intros [= <-].
  - destruct (decide (c = client)) as [->|Hne].
    + by rewrite remove_closed_panics.
    + unfold remove. destruct Hcl as (ch & Hch & Hcl).
      destruct (chans st !! c) as [ch'|]; [|done].
      destruct (Chan.close ch') as [ch''|]; [|done].
      intros [= <-]. exists ch. simpl. by rewrite lookup_insert_ne.
  - by apply range_clients_closed.
Qed.

Lemma receive_closed client c st :
  is_closed client st -> is_closed client (receive c st).
Proof.
  intros (ch & Hch & Hcl). unfold receive.
  destruct (decide (c = client)) as [->|Hne].
  - rewrite Hch. simpl. unfold Chan.recv.
    destruct (Chan.buf ch) as [|m rest]; [rewrite Hcl|];
      eexists; simpl; by rewrite lookup_insert_eq.
  - destruct (chans st !! c ≫= Chan.recv) as [[m ch']|]; [|by exists ch].
    exists ch. simpl. by rewrite lookup_insert_ne.
Qed.

(** After the channel of [client] was closed, every execution in which
    its handler deregisters ends in a panic of the coordinator. *)
Lemma exec_remove_closed_panics client st es r :
  exec st es r -> is_closed client st -> Cmd (RemoveClient client) ∈ es ->
  exists p, r = Err p.
Proof.
  induction 1 as [st|st c st' es r Hfresh Hstep _ IH
                 |st order cmd st' es r Hord Hstep _ IH
                 |st order cmd p es Hord Hstep
                 |st c es r _ IH];
    intros Hcl Hin.
  - by apply elem_of_nil in Hin.
  - apply elem_of_cons in Hin as [|Hin]; [done|].
    apply IH; [|done]. injection Hstep as <-.
    destruct Hcl as (ch & Hch & Hcl). exists ch. simpl.
    rewrite lookup_insert_ne; [done|]. intros ->. congruence.
  - apply elem_of_cons in Hin as [[= <-]|Hin].
    + simpl in Hstep. by rewrite remove_closed_panics in Hstep.
    + apply IH; [|done]. by eapply step_closed.
  - eauto.
  - apply elem_of_cons in Hin as [|Hin]; [done|].
    apply IH; [|done]. by apply receive_closed.
Qed.
End SharedInvariants.

(** ** The claims on queues, order, frames and channels *)

Import SharedFacts SharedInvariants.

Lemma fmt_d_inj u v : fmt_d u = fmt_d v -> u = v.
Proof.
  unfold fmt_d. intros H. apply DecimalZ.to_int_inj.
  apply (f_equal NilEmpty.int_of_string) in H.
  rewrite !NilEmpty.isi in H. congruence.
Qed.

Example fmt_d_42 : fmt_d 42 = "42".
Proof. reflexivity. Qed.

Example fmt_d_0 : fmt_d 0 = "0".
Proof. reflexivity. Qed.

Example fmt_d_neg : fmt_d (-7) = "-7".
Proof. reflexivity. Qed.

Example fmt_d_min_int64 : fmt_d (- 2 ^ 63) = "-9223372036854775808".
Proof. reflexivity. Qed.

(** C5: in the per-connection variant every schedule of publishes,
    deliveries and cancellation runs without a panic and leaves at most 10
    messages in the queue, and at a full queue the bridge drops the message
    and stays in its loop; in the shared variant every state an execution
    reaches has at most 10 messages in every queue, every execution of
    connections, broadcasts and deliveries runs without a panic, and a
    broadcast at a full queue evicts the client (deregistered, channel
    closed) and completes. *)
Theorem queue_never_exceeds_capacity :
  (forall uid w0 subscribed es,
     exists c, PerUser.run (PerUser.open uid w0 subscribed) es = Ok c /\
               (Chan.len (PerUser.queue c) <= 10)%nat) /\
  (forall c payload,
     Chan.closed (PerUser.queue c) = false ->
     Chan.len (PerUser.queue c) = Chan.cap (PerUser.queue c) ->
     PerUser.bridge c = true ->
     exists c',
       PerUser.step c
         (PerUser.Published (PerUser.channelName (PerUser.userID c)) payload)
         = Ok c' /\
       PerUser.queue c' = PerUser.queue c /\
       PerUser.dropped c' = PerUser.dropped c ++ [payload] /\
       PerUser.bridge c' = true) /\
  (forall es st,
     Shared.exec Shared.init es (Ok st) ->
     forall client ch, Shared.chans st !! client = Some ch ->
                       (Chan.len ch <= 10)%nat) /\
  (forall es r,
     Shared.exec Shared.init es r -> Forall Shared.forwarding es ->
     exists st, r = Ok st) /\
  (forall st order msg client ch,
     Shared.registry_open st -> Shared.range_order st order ->
     is_Some (Shared.clients st !! client) ->
     Shared.chans st !! client = Some ch ->
     Chan.len ch = Chan.cap ch ->
     exists st',
       Shared.clientManager_step order (Shared.Broadcast msg) st = Ok st' /\
       Shared.clients st' !! client = None /\
       Shared.chans st' !! client
         = Some {| Chan.cap := Chan.cap ch; Chan.buf := Chan.buf ch;
                   Chan.closed := true |}).
Proof.
  split; [|split; [|split; [|split]]].
  - intros uid w0 subscribed es.
    destruct (PerUserFacts.inv_run uid w0 es (PerUser.open uid w0 subscribed))
      as (c & Hrun & Hinv); [apply PerUserFacts.inv_open_conn|].
    exists c. split; [exact Hrun|]. apply Hinv.
  - intros c payload Hopen Hfull Hbridge. simpl.
    rewrite Hbridge, String.eqb_refl. simpl.
    destruct (PerUserFacts.full_queue_drops c payload Hopen Hfull)
      as (c' & -> & Hq & Hd & Hb & _).
    exists c'. repeat split; congruence.
  - intros es st Hexec client ch Hch.
    destruct (exec_bounded Shared.init es st Hexec init_bounded client ch Hch)
      as [Hle Hcap].
    rewrite Hcap in Hle. exact Hle.
  - intros es r Hexec Hall.
    destruct (exec_forwarding Shared.init es r Hexec Hall
                init_bounded init_registry_open) as (st & -> & _).
    by exists st.
  - intros st order msg client ch Hopen Hord Hreg Hch Hfull.
    destruct (broadcast_spec msg order st Hopen Hord) as (st' & Hrun & _ & Hin).
    exists st'. split; [exact Hrun|].
    destruct (Hin client ch Hreg Hch) as [Hch' Hcl'].
    unfold Shared.offered, Shared.kept in *. rewrite Hfull, Nat.ltb_irrefl in *. done.
Qed.

(** C6: with A and B registered, A's queue full and B's not, one
    broadcast (in any order of the range loop) removes A from the registry
    and closes A's queue, and appends the message to B's queue, B staying
    registered. *)
Theorem broadcast_evicts_full_and_delivers_to_other
    st order msg A B chA chB :
  Shared.registry_open st ->
  Shared.range_order st order ->
  is_Some (Shared.clients st !! A) ->
  is_Some (Shared.clients st !! B) ->
  Shared.chans st !! A = Some chA ->
  Shared.chans st !! B = Some chB ->
  Chan.len chA = Chan.cap chA ->
  (Chan.len chB < Chan.cap chB)%nat ->
  exists st',
    Shared.clientManager_step order (Shared.Broadcast msg) st = Ok st' /\
    Shared.clients st' !! A = None /\
    Shared.chans st' !! A
      = Some {| Chan.cap := Chan.cap chA; Chan.buf := Chan.buf chA;
                Chan.closed := true |} /\
    Shared.clients st' !! B = Shared.clients st !! B /\
    Shared.chans st' !! B
      = Some {| Chan.cap := Chan.cap chB; Chan.buf := Chan.buf chB ++ [msg];
                Chan.closed := false |}.
Proof.
  intros Hopen Hord HA HB HchA HchB Hfull Hroom.
  destruct (broadcast_spec msg order st Hopen Hord) as (st' & Hrun & _ & Hin).
  exists st'. split; [exact Hrun|].
  destruct (Hin A chA HA HchA) as [HA1 HA2].
  destruct (Hin B chB HB HchB) as [HB1 HB2].
  destruct (Hopen B HB) as (ch & Hch & Hcl).
  rewrite HchB in Hch. injection Hch as <-.
  unfold Shared.offered, Shared.kept in *. rewrite Hfull, Nat.ltb_irrefl in *.
  apply Nat.ltb_lt in Hroom. rewrite Hroom in *. rewrite Hcl in HB1. done.
Qed.

(** C7 fails on the code: after a broadcast has evicted a client with a
    full queue (deleting it from the registry and closing its channel),
    the deregistration its handler sends on exit makes [clientManager]
    close the channel a second time, and every execution that contains
    this deregistration ends in that panic of the coordinator. *)
Theorem eviction_then_deregistration_panics st order msg A ch :
  Shared.registry_open st ->
  Shared.range_order st order ->
  is_Some (Shared.clients st !! A) ->
  Shared.chans st !! A = Some ch ->
  Chan.len ch = Chan.cap ch ->
  exists st1,
    Shared.clientManager_step order (Shared.Broadcast msg) st = Ok st1 /\
    (forall order', Shared.clientManager_step order' (Shared.RemoveClient A) st1
                    = Err CloseOfClosedChannel) /\
    (forall es r, Shared.exec st1 es r ->
                  Shared.Cmd (Shared.RemoveClient A) ∈ es ->
                  exists p, r = Err p).
Proof.
  intros Hopen Hord HA Hch Hfull.
  destruct (broadcast_spec msg order st Hopen Hord) as (st1 & Hrun & _ & Hin).
  exists st1. split; [exact Hrun|].
  destruct (Hin A ch HA Hch) as [HA1 _].
  assert (Hcl : Shared.is_closed A st1).
  { eexists; split; [exact HA1|]. unfold Shared.offered.
    by rewrite Hfull, Nat.ltb_irrefl. }
  split.
  - intros order'. simpl. by apply remove_closed_panics.
  - intros es r Hexec Hin'. by eapply exec_remove_closed_panics.
Qed.

Lemma two_clients_open : Shared.registry_open SharedSample.two_clients.
Proof.
  intros client Hsome. simpl in *.
  destruct (decide (client = 1%nat)) as [->|H1].
  { eexists. split; [apply lookup_insert_eq|reflexivity]. }
  destruct (decide (client = 2%nat)) as [->|H2].
  { eexists. split; [by rewrite lookup_insert_ne, lookup_singleton_eq|reflexivity]. }
  rewrite lookup_insert_ne, lookup_singleton_ne in Hsome by done.
  by destruct Hsome.
Qed.

Lemma one_client_open : Shared.registry_open SharedSample.one_client.
Proof.
  intros client Hsome. simpl in *.
  destruct (decide (client = 1%nat)) as [->|H1].
  { eexists. split; [apply lookup_singleton_eq|reflexivity]. }
  rewrite lookup_singleton_ne in Hsome by done. by destruct Hsome.
Qed.

Lemma two_clients_order :
  Shared.range_order SharedSample.two_clients [1%nat; 2%nat].
Proof. unfold Shared.range_order. vm_compute. apply perm_swap. Qed.

Lemma one_client_order : Shared.range_order SharedSample.one_client [1%nat].
Proof. unfold Shared.range_order. vm_compute. reflexivity. Qed.

Example slow_client_crashes_coordinator :
  Shared.clientManager SharedSample.slow_client_trace
    (Shared.new_client 1 Shared.init) = Err CloseOfClosedChannel.
Proof. vm_compute. reflexivity. Qed.

Lemma queue_never_exceeds_capacity_witness :
  (exists c,
     PerUser.run (PerUser.open 42 Sample.writer true)
       (replicate 12 (PerUser.Published "events:user:42" "m")) = Ok c /\
     (Chan.len (PerUser.queue c) <= 10)%nat) /\
  (exists st',
     Shared.clientManager_step [1%nat] (Shared.Broadcast "m")
       SharedSample.one_client = Ok st' /\
     Shared.clients st' !! 1%nat = None /\
     Shared.chans st' !! 1%nat
       = Some {| Chan.cap := 10; Chan.buf := replicate 10 "m";
                 Chan.closed := true |}).
Proof.
  destruct queue_never_exceeds_capacity as (Hrun & _ & _ & _ & Hevict).
  split.
  - apply Hrun.
  - apply (Hevict SharedSample.one_client [1%nat] "m" 1%nat
             SharedSample.full_queue one_client_open one_client_order).
    + by eexists.
    + reflexivity.
    + reflexivity.
Defined.

Lemma broadcast_evicts_full_and_delivers_to_other_witness :
  exists st',
    Shared.clientManager_step [1%nat; 2%nat] (Shared.Broadcast "hello")
      SharedSample.two_clients = Ok st' /\
    Shared.clients st' !! 1%nat = None /\
    Shared.chans st' !! 1%nat
      = Some {| Chan.cap := 10; Chan.buf := replicate 10 "m";
                Chan.closed := true |} /\
    Shared.clients st' !! 2%nat = Some true /\
    Shared.chans st' !! 2%nat
      = Some {| Chan.cap := 10; Chan.buf := ["hello"]; Chan.closed := false |}.
Proof.
  apply (broadcast_evicts_full_and_delivers_to_other
           SharedSample.two_clients [1%nat; 2%nat] "hello" 1%nat 2%nat
           SharedSample.full_queue (Chan.make Shared.capacity)
           two_clients_open two_clients_order).
  - by eexists.
  - by eexists.
  - reflexivity.
  - reflexivity.
  - reflexivity.
  - vm_compute. lia.
Defined.

Lemma eviction_then_deregistration_panics_witness :
  exists st1,
    Shared.clientManager_step [1%nat] (Shared.Broadcast "m")
      SharedSample.one_client = Ok st1 /\
    (forall order', Shared.clientManager_step order' (Shared.RemoveClient 1) st1
                    = Err CloseOfClosedChannel) /\
    (forall es r, Shared.exec st1 es r ->
                  Shared.Cmd (Shared.RemoveClient 1) ∈ es ->
                  exists p, r = Err p).
Proof.
  apply (eviction_then_deregistration_panics SharedSample.one_client
           [1%nat] "m" 1%nat SharedSample.full_queue
           one_client_open one_client_order).
  - by eexists.
  - reflexivity.
  - reflexivity.
Defined.

(** * Further properties of the code *)

(** ** Start-up *)

(** X1: [main] reaches [http.ListenAndServe] exactly when the bus URL is
    set (in the environment or in the [.env] file), [redis.ParseURL]
    accepts it and the bus answers the ping; the address is then a colon
    followed by [GO_SSE_SIDECAR_PORT], or by 5687 when that variable is
    absent or empty. *)
Theorem main_serves_iff (Options : Type)
    (ParseURL : string -> option Options) (Ping : Options -> bool)
    (env dotenv : gmap string string) (addr : string) :
  main Options ParseURL Ping env dotenv = ListenAndServe addr <->
  Getenv (godotenv_Load env dotenv) "GO_SSE_SIDECAR_REDIS_URL" <> "" /\
  (exists opts,
     ParseURL (Getenv (godotenv_Load env dotenv) "GO_SSE_SIDECAR_REDIS_URL")
       = Some opts /\ Ping opts = true) /\
  addr = ":" +:+
    (if String.eqb (Getenv (godotenv_Load env dotenv) "GO_SSE_SIDECAR_PORT") ""
     then "5687"
     else Getenv (godotenv_Load env dotenv) "GO_SSE_SIDECAR_PORT").
Proof.
  unfold main, getRedisClient.
  destruct (String.eqb_spec
              (Getenv (godotenv_Load env dotenv) "GO_SSE_SIDECAR_REDIS_URL") "")
    as [Hurl|Hurl].
  { split; [discriminate|]. by intros [? _]. }
  destruct (ParseURL _) as [opts|] eqn:Hparse.
  - destruct (Ping opts) eqn:Hping.
    + split.
      * intros [= <-]. eauto 10.
      * by intros (_ & _ & ->).
    + split; [discriminate|].
      intros (_ & (opts' & [= <-] & Hp) & _). congruence.
  - split; [discriminate|]. by intros (_ & (opts' & ? & _) & _).
Qed.

(** X2: [main] never looks at the signing secret: setting
    [GO_SSE_SIDECAR_TOKEN] to any value, or removing it, in the environment
    and in the [.env] file does not change the outcome of start-up. *)
Theorem main_ignores_secret (Options : Type)
    (ParseURL : string -> option Options) (Ping : Options -> bool)
    (env dotenv : gmap string string) (s1 s2 : option string) :
  main Options ParseURL Ping
    (partial_alter (fun _ => s1) "GO_SSE_SIDECAR_TOKEN" env)
    (partial_alter (fun _ => s2) "GO_SSE_SIDECAR_TOKEN" dotenv)
  = main Options ParseURL Ping env dotenv.
Proof.
  assert (H : forall key, key <> "GO_SSE_SIDECAR_TOKEN" ->
            Getenv (godotenv_Load
                      (partial_alter (fun _ => s1) "GO_SSE_SIDECAR_TOKEN" env)
                      (partial_alter (fun _ => s2) "GO_SSE_SIDECAR_TOKEN" dotenv))
                   key
            = Getenv (godotenv_Load env dotenv) key).
  { intros key Hne. unfold Getenv, godotenv_Load.
    rewrite !lookup_union, !lookup_partial_alter_ne by done. reflexivity. }
  unfold main, getRedisClient. rewrite !H by discriminate. reflexivity.
Qed.

(** X3: the start-up check covers the requests: when [main] has reached
    [http.ListenAndServe], the [getRedisClient] call that [sseHandler] of
    [main.go] makes for each accepted connection, in the same environment,
    never ends the process. *)
Theorem startup_check_covers_requests decode mac (Options : Type)
    (ParseURL : string -> option Options) (Ping : Options -> bool)
    (env dotenv : gmap string string) addr now w r :
  main Options ParseURL Ping env dotenv = ListenAndServe addr ->
  forall line,
    outcome (PerUser.sseHandler decode mac Options ParseURL
               (godotenv_Load env dotenv) now w r) <> Fatal line.
Proof.
  intros Hmain line. unfold main in Hmain. unfold PerUser.sseHandler.
  destruct (getRedisClient Options ParseURL (godotenv_Load env dotenv))
    as [opts|l]; [|discriminate].
  destruct (verifySseToken _ _ _ _ _) as [claims|err]; [|discriminate].
  destruct (Jwt.ExpiresAt _); [|discriminate].
  simpl. by destruct (flusher w).
Qed.

Lemma startup_check_covers_requests_witness :
  outcome (PerUser.sseHandler Sample.decode Sample.mac string Sample.ParseURL
             (godotenv_Load Sample.env ∅) Sample.now Sample.writer
             (Sample.request "valid"))
  <> Fatal "GO_SSE_SIDECAR_REDIS_URL not set".
Proof.
  apply (startup_check_covers_requests Sample.decode Sample.mac string
           Sample.ParseURL Sample.Ping Sample.env ∅ ":5687" Sample.now
           Sample.writer (Sample.request "valid")).
  vm_compute. reflexivity.
Defined.

(** ** Token verification *)

Lemma GetSigningMethod_HMAC a h :
  Jwt.GetSigningMethod a = Some (Jwt.SigningMethodHMAC h) <->
  (a = "HS256" /\ h = Jwt.SHA256) \/ (a = "HS384" /\ h = Jwt.SHA384) \/
  (a = "HS512" /\ h = Jwt.SHA512).
Proof.
  split.
  - unfold Jwt.GetSigningMethod.
    repeat match goal with
           | |- context [String.eqb a ?s] =>
               destruct (String.eqb_spec a s) as [->|?]
           end;
      intros H; simpl in H; try discriminate H; injection H as <-; auto.
  - by intros [[-> ->]|[[-> ->]|[-> ->]]].
Qed.

Lemma Validate_nil c now :
  Jwt.Validate c now = [] <->
  (forall exp, Jwt.ExpiresAt c = Some exp -> now < exp) /\
  (forall nbf, Jwt.NotBefore c = Some nbf -> nbf <= now).
Proof.
  unfold Jwt.Validate, Jwt.verifyExpiresAt, Jwt.verifyNotBefore.
  destruct (Jwt.ExpiresAt c) as [exp|], (Jwt.NotBefore c) as [nbf|];
    repeat match goal with
           | |- context [?a <? ?b] => destruct (Z.ltb_spec a b)
           end; simpl; split; try done.
  all: try (intros _; split; intros ? [= <-]; lia).
  all: try (intros [H1 H2]; try specialize (H1 _ eq_refl);
            try specialize (H2 _ eq_refl); lia).
Qed.

(** X4: [verifySseToken] returns claims exactly for the tokens that
    decode, whose header names HS256, HS384 or HS512, whose signature is
    the tag of the signed text under the given secret with the hash of
    that name, whose [exp], when present, is strictly after the current
    instant and whose [nbf], when present, is not after it; the claims
    returned are the decoded ones. *)
Theorem verifySseToken_succeeds_iff decode mac now tokenString secret c :
  verifySseToken decode mac now tokenString secret = Ok c <->
  exists seg a h,
    decode tokenString = Some seg /\
    Jwt.alg seg = Some a /\
    ((a = "HS256" /\ h = Jwt.SHA256) \/ (a = "HS384" /\ h = Jwt.SHA384) \/
     (a = "HS512" /\ h = Jwt.SHA512)) /\
    Jwt.signature seg = Some (mac h secret (Jwt.signingString seg)) /\
    (forall exp, Jwt.ExpiresAt (RegisteredClaims (Jwt.claims seg)) = Some exp ->
                 now < exp) /\
    (forall nbf, Jwt.NotBefore (RegisteredClaims (Jwt.claims seg)) = Some nbf ->
                 nbf <= now) /\
    c = Jwt.claims seg.
Proof.
  rewrite verifySseToken_Ok. split.
  - intros (seg & a & h & Hd & Ha & Hm & Hs & Hv & ->).
    apply GetSigningMethod_HMAC in Hm. apply Validate_nil in Hv as [He Hn].
    exists seg, a, h. auto 10.
  - intros (seg & a & h & Hd & Ha & Hm & Hs & He & Hn & ->).
    apply GetSigningMethod_HMAC in Hm.
    exists seg, a, h. repeat split; try assumption. by apply Validate_nil.
Qed.

(** X5: every error of [verifySseToken] is a token parse error: when
    [jwt.ParseWithClaims] returns no error the token is marked valid, so
    the final [invalid token] return is never taken. *)
Theorem verifySseToken_error_is_parse_error decode mac now tokenString secret err :
  verifySseToken decode mac now tokenString secret = Err err ->
  exists e, err = TokenParseError e.
Proof.
  unfold verifySseToken, Jwt.ParseWithClaims, Jwt.ParseUnverified.
  destruct (decode tokenString) as [seg|]; [|intros [= <-]; eauto].
  destruct (Jwt.alg seg) as [a|]; [|intros [= <-]; eauto].
  destruct (Jwt.GetSigningMethod a) as [m|]; [|intros [= <-]; eauto].
  destruct (Jwt.signature seg) as [sig|]; [|intros [= <-]; eauto].
  destruct (keyFunc secret _) as [key|e]; [|intros [= <-]; eauto].
  destruct (Jwt.Verify _ _ _ _ _); [|intros [= <-]; eauto].
  destruct (Jwt.Validate _ _); [discriminate|intros [= <-]; eauto].
Qed.

Lemma verifySseToken_error_is_parse_error_witness :
  exists e,
    TokenParseError
      (Jwt.ErrTokenUnverifiable (Some "unexpected signing method: RS256"))
    = TokenParseError e.
Proof.
  apply (verifySseToken_error_is_parse_error Sample.decode Sample.mac
           Sample.now "rs256" "secret").
  vm_compute. reflexivity.
Defined.

(** ** The handlers *)

Lemma verify_signed_unexpired decode mac now tokenString secret seg :
  decode tokenString = Some seg ->
  signed_and_unexpired mac seg secret now ->
  not_before_reached seg now ->
  verifySseToken decode mac now tokenString secret = Ok (Jwt.claims seg) /\
  is_Some (Jwt.ExpiresAt (RegisteredClaims (Jwt.claims seg))).
Proof.
  intros Hd (a & h & exp & Ha & Hm & Hs & He & Hlt) Hnbf. split; [|by rewrite He].
  apply verifySseToken_Ok. exists seg, a, h. repeat split; try assumption.
  apply Validate_nil. split.
  - intros exp' He'. rewrite He in He'. by injection He' as <-.
  - intros nbf Hn. unfold not_before_reached in Hnbf. by rewrite Hn in Hnbf.
Qed.

(** X6: in [main.go], a request whose token is well formed, signed with
    the configured secret, not expired and past its not-before instant, on
    a connection that can flush and with the bus URL configured, enters
    the stream as the user the token names: one queue of capacity 10 is
    allocated, one subscription is started and it is on the channel
    [events:user:<that user id>]; the event-stream headers are set and
    nothing has been written yet. *)
Theorem PerUser_valid_request_streams decode mac (Options : Type)
    (ParseURL : string -> option Options) env now w r seg opts :
  decode (Query_Get (query r) "ssetoken") = Some seg ->
  signed_and_unexpired mac seg (Getenv env "GO_SSE_SIDECAR_TOKEN") now ->
  not_before_reached seg now ->
  flusher w = true ->
  getRedisClient Options ParseURL env = Ok opts ->
  let s := PerUser.sseHandler decode mac Options ParseURL env now w r in
  outcome s = Streaming (UserID (Jwt.claims seg)) /\
  filter (fun e => allocates e = true) (effects s)
    = [MakeChan 10; NewRedisClient;
       GoSubscribe ("events:user:" +:+ fmt_d (UserID (Jwt.claims seg)))] /\
  header (resp s) !! "Content-Type" = Some "text/event-stream" /\
  header (resp s) !! "Cache-Control" = Some "no-cache" /\
  header (resp s) !! "Connection" = Some "keep-alive" /\
  status (resp s) = status w /\
  body (resp s) = body w.
Proof.
  intros Hd Hsig Hnbf Hfl Hurl.
  destruct (verify_signed_unexpired decode mac now _ _ seg Hd Hsig Hnbf)
    as [Hv [exp He]].
  unfold PerUser.sseHandler. rewrite Hv, He, Hurl. simpl. rewrite Hfl. simpl.
  repeat split.
  - by rewrite lookup_insert_ne, lookup_insert_ne, lookup_insert_eq.
  - by rewrite lookup_insert_ne, lookup_insert_eq.
  - by rewrite lookup_insert_eq.
Qed.

Lemma PerUser_valid_request_streams_witness :
  let s := PerUser.sseHandler Sample.decode Sample.mac string Sample.ParseURL
             Sample.env Sample.now Sample.writer (Sample.request "valid") in
  outcome s = Streaming 42 /\
  filter (fun e => allocates e = true) (effects s)
    = [MakeChan 10; NewRedisClient; GoSubscribe ("events:user:" +:+ fmt_d 42)] /\
  header (resp s) !! "Content-Type" = Some "text/event-stream" /\
  header (resp s) !! "Cache-Control" = Some "no-cache" /\
  header (resp s) !! "Connection" = Some "keep-alive" /\
  status (resp s) = None /\
  body (resp s) = "".
Proof.
  apply (PerUser_valid_request_streams Sample.decode Sample.mac string
           Sample.ParseURL Sample.env Sample.now Sample.writer
           (Sample.request "valid")
           (Sample.segments "HS256" 42 (Some 2000) None "secret")
           "redis://localhost:6379/0").
  - vm_compute. reflexivity.
  - exists "HS256", Jwt.SHA256, 2000. repeat split.
  - exact I.
  - reflexivity.
  - vm_compute. reflexivity.
Defined.

(** X7: in the shared variant, the same request on a connection that can
    flush enters the stream: one queue of capacity 10 is allocated, the
    client is sent to the coordinator for registration and its
    deregistration is deferred; no subscription is started; the
    event-stream headers are set and nothing has been written yet. *)
Theorem Shared_valid_request_streams decode mac env now w r seg :
  decode (Query_Get (query r) "ssetoken") = Some seg ->
  signed_and_unexpired mac seg (Getenv env "GO_SSE_SIDECAR_TOKEN") now ->
  not_before_reached seg now ->
  flusher w = true ->
  let s := Shared.sseHandler decode mac env now w r in
  outcome s = Streaming (UserID (Jwt.claims seg)) /\
  filter (fun e => allocates e = true) (effects s)
    = [MakeChan 10; SendAddClient; DeferRemoveClient] /\
  header (resp s) !! "Content-Type" = Some "text/event-stream" /\
  header (resp s) !! "Cache-Control" = Some "no-cache" /\
  header (resp s) !! "Connection" = Some "keep-alive" /\
  status (resp s) = status w /\
  body (resp s) = body w.
Proof.
  intros Hd Hsig Hnbf Hfl.
  destruct (verify_signed_unexpired decode mac now _ _ seg Hd Hsig Hnbf)
    as [Hv [exp He]].
  unfold Shared.sseHandler. rewrite Hv, He. simpl. rewrite Hfl. simpl.
  repeat split.
  - by rewrite lookup_insert_ne, lookup_insert_ne, lookup_insert_eq.
  - by rewrite lookup_insert_ne, lookup_insert_eq.
  - by rewrite lookup_insert_eq.
Qed.

Lemma Shared_valid_request_streams_witness :
  let s := Shared.sseHandler Sample.decode Sample.mac Sample.env Sample.now
             Sample.writer (Sample.request "valid") in
  outcome s = Streaming 42 /\
  filter (fun e => allocates e = true) (effects s)
    = [MakeChan 10; SendAddClient; DeferRemoveClient] /\
  header (resp s) !! "Content-Type" = Some "text/event-stream" /\
  header (resp s) !! "Cache-Control" = Some "no-cache" /\
  header (resp s) !! "Connection" = Some "keep-alive" /\
  status (resp s) = None /\
  body (resp s) = "".
Proof.
  apply (Shared_valid_request_streams Sample.decode Sample.mac Sample.env
           Sample.now Sample.writer (Sample.request "valid")
           (Sample.segments "HS256" 42 (Some 2000) None "secret")).
  - vm_compute. reflexivity.
  - exists "HS256", Jwt.SHA256, 2000. repeat split.
  - exact I.
  - reflexivity.
Defined.

Lemma http_Error_header msg code w key :
  key <> "Content-Type" -> key <> "X-Content-Type-Options" ->
  header (http_Error msg code w) !! key = header w !! key.
Proof.
  intros H1 H2. simpl. by rewrite !lookup_insert_ne.
Qed.

(** X8: both handlers set the two cross-origin headers before they look
    at the token, and no path removes them: whatever the request and
    however the handler ends, the response carries
    [Access-Control-Allow-Origin: *] and
    [Access-Control-Allow-Credentials: true]. *)
Theorem cors_headers_on_every_response decode mac (Options : Type)
    (ParseURL : string -> option Options) env now w r :
  let p := PerUser.sseHandler decode mac Options ParseURL env now w r in
  let s := Shared.sseHandler decode mac env now w r in
  header (resp p) !! "Access-Control-Allow-Origin" = Some "*" /\
  header (resp p) !! "Access-Control-Allow-Credentials" = Some "true" /\
  header (resp s) !! "Access-Control-Allow-Origin" = Some "*" /\
  header (resp s) !! "Access-Control-Allow-Credentials" = Some "true".
Proof.
  unfold PerUser.sseHandler, Shared.sseHandler.
  destruct (verifySseToken _ _ _ _ _) as [claims|err].
  - destruct (Jwt.ExpiresAt _).
    + simpl flusher. destruct (flusher w).
      * destruct (getRedisClient _ _ _); simpl;
          repeat split; by repeat (rewrite lookup_insert_ne by done);
          rewrite ?lookup_insert_eq.
      * cbn [resp]. rewrite !http_Error_header by done. simpl.
        repeat split; by repeat (rewrite lookup_insert_ne by done);
          rewrite ?lookup_insert_eq.
    + simpl. repeat split; by repeat (rewrite lookup_insert_ne by done);
        rewrite ?lookup_insert_eq.
  - cbn [resp]. rewrite !http_Error_header by done. simpl.
    repeat split; by repeat (rewrite lookup_insert_ne by done);
      rewrite ?lookup_insert_eq.
Qed.

(** X9: when the response writer cannot flush, both handlers refuse an
    authenticated request with status 500 and the body
    [Streaming unsupported] followed by a line feed, before they allocate
    a queue, start a subscription or register anything. *)
Theorem no_flusher_is_refused_with_500 decode mac (Options : Type)
    (ParseURL : string -> option Options) env now w r claims exp :
  verifySseToken decode mac now (Query_Get (query r) "ssetoken")
    (Getenv env "GO_SSE_SIDECAR_TOKEN") = Ok claims ->
  Jwt.ExpiresAt (RegisteredClaims claims) = Some exp ->
  flusher w = false ->
  status w = None ->
  let p := PerUser.sseHandler decode mac Options ParseURL env now w r in
  let s := Shared.sseHandler decode mac env now w r in
  (sent_status (resp p) = 500 /\
   body (resp p) = body w +:+ "Streaming unsupported" +:+ LF /\
   outcome p = Returned /\
   filter (fun e => allocates e = true) (effects p) = []) /\
  (sent_status (resp s) = 500 /\
   body (resp s) = body w +:+ "Streaming unsupported" +:+ LF /\
   outcome s = Returned /\
   filter (fun e => allocates e = true) (effects s) = []).
Proof.
  intros Hv He Hfl Hst.
  unfold PerUser.sseHandler, Shared.sseHandler. rewrite Hv, He. simpl.
  rewrite Hfl. unfold sent_status. simpl. rewrite Hst. simpl. done.
Qed.

Lemma no_flusher_is_refused_with_500_witness :
  let w := {| header := ∅; status := None; body := ""; flusher := false |} in
  let p := PerUser.sseHandler Sample.decode Sample.mac string Sample.ParseURL
             Sample.env Sample.now w (Sample.request "valid") in
  let s := Shared.sseHandler Sample.decode Sample.mac Sample.env Sample.now w
             (Sample.request "valid") in
  (sent_status (resp p) = 500 /\
   body (resp p) = "" +:+ "Streaming unsupported" +:+ LF /\
   outcome p = Returned /\
   filter (fun e => allocates e = true) (effects p) = []) /\
  (sent_status (resp s) = 500 /\
   body (resp s) = "" +:+ "Streaming unsupported" +:+ LF /\
   outcome s = Returned /\
   filter (fun e => allocates e = true) (effects s) = []).
Proof.
  apply (no_flusher_is_refused_with_500 Sample.decode Sample.mac string
           Sample.ParseURL Sample.env Sample.now
           {| header := ∅; status := None; body := ""; flusher := false |}
           (Sample.request "valid")
           {| UserID := 42; RegisteredClaims := Sample.registered (Some 2000) None |}
           2000).
  - vm_compute. reflexivity.
  - reflexivity.
  - reflexivity.
  - reflexivity.
Defined.

(** X10: the [exp] claim is optional for [verifySseToken], but both
    handlers read [claims.ExpiresAt.Time] for their log line: a token
    signed with the configured secret that carries no [exp] claim (and is
    past its not-before instant) is accepted by [verifySseToken], and the
    handler then panics on the nil pointer, before it allocates anything
    and without having written a status or a body. *)
Theorem token_without_exp_panics_handler decode mac (Options : Type)
    (ParseURL : string -> option Options) env now w r seg a h :
  decode (Query_Get (query r) "ssetoken") = Some seg ->
  Jwt.alg seg = Some a ->
  Jwt.GetSigningMethod a = Some (Jwt.SigningMethodHMAC h) ->
  Jwt.signature seg
    = Some (mac h (Getenv env "GO_SSE_SIDECAR_TOKEN") (Jwt.signingString seg)) ->
  Jwt.ExpiresAt (RegisteredClaims (Jwt.claims seg)) = None ->
  not_before_reached seg now ->
  let p := PerUser.sseHandler decode mac Options ParseURL env now w r in
  let s := Shared.sseHandler decode mac env now w r in
  verifySseToken decode mac now (Query_Get (query r) "ssetoken")
    (Getenv env "GO_SSE_SIDECAR_TOKEN") = Ok (Jwt.claims seg) /\
  (outcome p = Panicked NilPointerDereference /\
   filter (fun e => allocates e = true) (effects p) = [] /\
   status (resp p) = status w /\ body (resp p) = body w) /\
  (outcome s = Panicked NilPointerDereference /\
   filter (fun e => allocates e = true) (effects s) = [] /\
   status (resp s) = status w /\ body (resp s) = body w).
Proof.
  intros Hd Ha Hm Hs He Hnbf.
  assert (Hv : verifySseToken decode mac now (Query_Get (query r) "ssetoken")
                 (Getenv env "GO_SSE_SIDECAR_TOKEN") = Ok (Jwt.claims seg)).
  { apply verifySseToken_Ok. exists seg, a, h. repeat split; try assumption.
    apply Validate_nil. split.
    - intros exp He'. congruence.
    - intros nbf Hn. unfold not_before_reached in Hnbf. by rewrite Hn in Hnbf. }
  split; [exact Hv|].
  unfold PerUser.sseHandler, Shared.sseHandler. rewrite Hv, He. simpl. done.
Qed.

Lemma token_without_exp_panics_handler_witness :
  let decode := fun s : string =>
    if String.eqb s "noexp"
    then Some (Sample.segments "HS256" 42 None None "secret") else None in
  let p := PerUser.sseHandler decode Sample.mac string Sample.ParseURL
             Sample.env Sample.now Sample.writer (Sample.request "noexp") in
  let s := Shared.sseHandler decode Sample.mac Sample.env Sample.now
             Sample.writer (Sample.request "noexp") in
  verifySseToken decode Sample.mac Sample.now
    (Query_Get (query (Sample.request "noexp")) "ssetoken")
    (Getenv Sample.env "GO_SSE_SIDECAR_TOKEN")
    = Ok (Jwt.claims (Sample.segments "HS256" 42 None None "secret")) /\
  (outcome p = Panicked NilPointerDereference /\
   filter (fun e => allocates e = true) (effects p) = [] /\
   status (resp p) = None /\ body (resp p) = "") /\
  (outcome s = Panicked NilPointerDereference /\
   filter (fun e => allocates e = true) (effects s) = [] /\
   status (resp s) = None /\ body (resp s) = "").
Proof.
  apply (token_without_exp_panics_handler
           (fun s : string =>
              if String.eqb s "noexp"
              then Some (Sample.segments "HS256" 42 None None "secret")
              else None)
           Sample.mac string Sample.ParseURL Sample.env Sample.now
           Sample.writer (Sample.request "noexp")
           (Sample.segments "HS256" 42 None None "secret")
           "HS256" Jwt.SHA256).
  - vm_compute. reflexivity.
  - reflexivity.
  - reflexivity.
  - vm_compute. reflexivity.
  - reflexivity.
  - exact I.
Defined.

(** X11: the refusal of [main.go] does not tell why the token failed: for
    one response writer and one environment, any two requests whose tokens
    fail verification, for whatever reasons, get the same response (status
    401, the same headers, the body [Unauthorized] and a line feed). *)
Theorem refusal_is_uniform decode mac (Options : Type)
    (ParseURL : string -> option Options) env now w r1 r2 err1 err2 :
  verifySseToken decode mac now (Query_Get (query r1) "ssetoken")
    (Getenv env "GO_SSE_SIDECAR_TOKEN") = Err err1 ->
  verifySseToken decode mac now (Query_Get (query r2) "ssetoken")
    (Getenv env "GO_SSE_SIDECAR_TOKEN") = Err err2 ->
  resp (PerUser.sseHandler decode mac Options ParseURL env now w r1)
  = resp (PerUser.sseHandler decode mac Options ParseURL env now w r2) /\
  body (resp (PerUser.sseHandler decode mac Options ParseURL env now w r1))
  = body w +:+ "Unauthorized" +:+ LF.
Proof.
  intros H1 H2. unfold PerUser.sseHandler. rewrite H1, H2. done.
Qed.

Lemma refusal_is_uniform_witness :
  resp (PerUser.sseHandler Sample.decode Sample.mac string Sample.ParseURL
          Sample.env Sample.now Sample.writer (Sample.request "expired"))
  = resp (PerUser.sseHandler Sample.decode Sample.mac string Sample.ParseURL
            Sample.env Sample.now Sample.writer (Sample.request "garbage")) /\
  body (resp (PerUser.sseHandler Sample.decode Sample.mac string
                Sample.ParseURL Sample.env Sample.now Sample.writer
                (Sample.request "expired")))
  = "" +:+ "Unauthorized" +:+ LF.
Proof.
  apply (refusal_is_uniform Sample.decode Sample.mac string Sample.ParseURL
           Sample.env Sample.now Sample.writer
           (Sample.request "expired") (Sample.request "garbage")
           (TokenParseError (Jwt.ErrTokenInvalidClaims [Jwt.ErrTokenExpired]))
           (TokenParseError Jwt.ErrTokenMalformed)).
  - vm_compute. reflexivity.
  - vm_compute. reflexivity.
Defined.

(** ** The per-connection variant: what a client sees *)

Lemma publishes_without_delivery uid msgs : forall c,
  PerUser.userID c = uid ->
  PerUser.bridge c = true ->
  Chan.closed (PerUser.queue c) = false ->
  Chan.cap (PerUser.queue c) = 10%nat ->
  exists c',
    PerUser.run c (PerUser.publish uid <$> msgs) = Ok c' /\
    Chan.buf (PerUser.queue c')
      = Chan.buf (PerUser.queue c)
        ++ take (10 - Chan.len (PerUser.queue c)) msgs /\
    PerUser.dropped c'
      = PerUser.dropped c ++ drop (10 - Chan.len (PerUser.queue c)) msgs /\
    PerUser.received c' = PerUser.received c ++ msgs /\
    PerUser.written c' = PerUser.written c /\
    PerUser.w c' = PerUser.w c.
Proof.
  induction msgs as [|m msgs IH]; intros c Hu Hb Ho Hc.
  - exists c. simpl. rewrite take_nil, drop_nil, !app_nil_r. done.
  - cbn [fmap list_fmap PerUser.run]. unfold PerUser.publish at 1.
    unfold PerUser.step. rewrite Hb, Hu, String.eqb_refl. cbn [andb].
    unfold PerUser.subscribeToUserChannel_msg, Chan.try_send.
    rewrite Ho, Hc.
    destruct (Nat.ltb_spec (Chan.len (PerUser.queue c)) 10) as [Hlt|Hge].
    + match goal with
      | |- context [PerUser.run ?c1 _] =>
          destruct (IH c1) as (c' & Hrun & Hq & Hd & Hr & Hw & Hww);
            [done|done|done|done|]
      end.
      exists c'. split; [exact Hrun|]. simpl in *.
      unfold Chan.len in *. simpl in *. rewrite length_app in *. simpl in *.
      replace (10 - length (Chan.buf (PerUser.queue c)))%nat
        with (S (10 - (length (Chan.buf (PerUser.queue c)) + 1)))%nat by lia.
      simpl. rewrite Hq, Hd, Hr, <- !(assoc (++)). done.
    + match goal with
      | |- context [PerUser.run ?c1 _] =>
          destruct (IH c1) as (c' & Hrun & Hq & Hd & Hr & Hw & Hww);
            [done|done|done|done|]
      end.
      exists c'. split; [exact Hrun|]. simpl in *.
      replace (10 - Chan.len (PerUser.queue c))%nat with 0%nat in * by lia.
      rewrite take_0, drop_0 in *. simpl.
      rewrite Hq, Hd, Hr, <- !(assoc (++)). done.
Qed.

(** X12: a client that reads nothing keeps the oldest messages: when
    [msgs] are published on the channel of a connection whose dispatcher
    takes none of them, the queue holds the first 10 of them in order, the
    others are dropped (in order), nothing is written, and the bridge has
    received all of them. *)
Theorem slow_client_keeps_first_ten uid w0 msgs :
  exists c,
    PerUser.run (PerUser.open uid w0 true) (PerUser.publish uid <$> msgs)
      = Ok c /\
    Chan.buf (PerUser.queue c) = take 10 msgs /\
    PerUser.dropped c = drop 10 msgs /\
    PerUser.received c = msgs /\
    PerUser.written c = [] /\
    body (PerUser.w c) = body w0.
Proof.
  destruct (publishes_without_delivery uid msgs (PerUser.open uid w0 true))
    as (c & Hrun & Hq & Hd & Hr & Hw & Hww); try done.
  exists c. split; [exact Hrun|]. simpl in *. rewrite Hww. done.
Qed.

Lemma publish_deliver_alternating uid msgs : forall c,
  PerUser.userID c = uid ->
  PerUser.bridge c = true ->
  PerUser.dispatcher c = true ->
  Chan.closed (PerUser.queue c) = false ->
  Chan.cap (PerUser.queue c) = 10%nat ->
  Chan.buf (PerUser.queue c) = [] ->
  exists c',
    PerUser.run c
      (concat ((fun m => [PerUser.publish uid m; PerUser.Deliver]) <$> msgs))
      = Ok c' /\
    Chan.buf (PerUser.queue c') = [] /\
    PerUser.dropped c' = PerUser.dropped c /\
    PerUser.received c' = PerUser.received c ++ msgs /\
    PerUser.written c' = PerUser.written c ++ msgs /\
    body (PerUser.w c') = body (PerUser.w c) +:+ frames msgs.
Proof.
  induction msgs as [|m msgs IH]; intros c Hu Hb Hdi Ho Hc Hq.
  - exists c. simpl. rewrite !app_nil_r, append_nil_r. done.
  - cbn [fmap list_fmap concat app PerUser.run]. unfold PerUser.publish at 1.
    unfold PerUser.step at 1. rewrite Hb, Hu, String.eqb_refl. cbn [andb].
    unfold PerUser.subscribeToUserChannel_msg, Chan.try_send, Chan.len.
    rewrite Ho, Hc, Hq. cbn [length Nat.ltb Nat.leb app].
    cbn [PerUser.step PerUser.dispatcher]. rewrite Hdi.
    unfold PerUser.sseHandler_msg. cbn [PerUser.queue Chan.recv Chan.buf].
    match goal with
    | |- context [PerUser.run ?c1 _] =>
        destruct (IH c1) as (c' & Hrun & Hq' & Hd & Hr & Hw & Hbody);
          [done|done|done|done|done|done|]
    end.
    exists c'. split; [exact Hrun|]. simpl in *.
    rewrite Hq', Hd, Hr, Hw, Hbody, <- !(assoc (++)), append_assoc. done.
Qed.

(** X13: a client that keeps up loses nothing: when each publish on the
    connection's channel is followed by a delivery, every message is
    written, in the order of the publishes, as one frame each; nothing is
    dropped and the queue is empty at the end. *)
Theorem client_keeping_up_receives_all uid w0 msgs :
  exists c,
    PerUser.run (PerUser.open uid w0 true)
      (concat ((fun m => [PerUser.publish uid m; PerUser.Deliver]) <$> msgs))
      = Ok c /\
    PerUser.written c = msgs /\
    PerUser.dropped c = [] /\
    Chan.buf (PerUser.queue c) = [] /\
    body (PerUser.w c) = body w0 +:+ frames msgs.
Proof.
  destruct (publish_deliver_alternating uid msgs (PerUser.open uid w0 true))
    as (c & Hrun & Hq & Hd & Hr & Hw & Hbody); try done.
  exists c. split; [exact Hrun|]. simpl in *. done.
Qed.

(** The scenario of one ping for user 42. *)
Example ping_for_user_42 :
  exists c,
    PerUser.run (PerUser.open 42 Sample.writer true)
      [PerUser.Published "events:user:42" "{'event':'ping'}"; PerUser.Deliver]
      = Ok c /\
    body (PerUser.w c) = "data: {'event':'ping'}" +:+ LF +:+ LF.
Proof. eexists. split; reflexivity. Qed.

Lemma unsubscribed_run es : forall c,
  PerUser.bridge c = false ->
  Chan.closed (PerUser.queue c) = false ->
  Chan.buf (PerUser.queue c) = [] ->
  exists c',
    PerUser.run c es = Ok c' /\
    PerUser.queue c' = PerUser.queue c /\
    PerUser.w c' = PerUser.w c /\
    PerUser.received c' = PerUser.received c /\
    PerUser.written c' = PerUser.written c /\
    PerUser.dropped c' = PerUser.dropped c.
Proof.
  induction es as [|e es IH]; intros c Hb Ho Hq; [by exists c|].
  assert (Hstep : exists c1, PerUser.step c e = Ok c1 /\
            PerUser.bridge c1 = false /\
            PerUser.queue c1 = PerUser.queue c /\
            PerUser.w c1 = PerUser.w c /\
            PerUser.received c1 = PerUser.received c /\
            PerUser.written c1 = PerUser.written c /\
            PerUser.dropped c1 = PerUser.dropped c).
  { destruct e; simpl; rewrite ?Hb; simpl; try by eauto 10.
    unfold PerUser.sseHandler_msg, Chan.recv. rewrite Hq, Ho.
    destruct (PerUser.dispatcher c); eauto 10. }
  destruct Hstep as (c1 & Hs & Hb1 & Hq1 & Hw1 & Hr1 & Hwr1 & Hd1).
  simpl. rewrite Hs.
  destruct (IH c1) as (c' & Hrun & Hq' & Hw' & Hr' & Hwr' & Hd');
    [done|by rewrite Hq1|by rewrite Hq1|].
  exists c'. split; [exact Hrun|]. repeat split; congruence.
Qed.

(** X14: when the subscription of the bridge is not confirmed
    ([pubsub.Receive] fails and [subscribeToUserChannel] returns), nothing
    is ever forwarded: whatever is published and whatever the schedule,
    the queue stays empty, nothing is received, dropped or written, and
    the response stays as it was when the stream was opened. *)
Theorem failed_subscription_forwards_nothing uid w0 es :
  exists c,
    PerUser.run (PerUser.open uid w0 false) es = Ok c /\
    Chan.buf (PerUser.queue c) = [] /\
    PerUser.received c = [] /\
    PerUser.written c = [] /\
    PerUser.dropped c = [] /\
    PerUser.w c = w0.
Proof.
  destruct (unsubscribed_run es (PerUser.open uid w0 false))
    as (c & Hrun & Hq & Hw & Hr & Hwr & Hd); try done.
  exists c. split; [exact Hrun|]. rewrite Hq. done.
Qed.

(** X15: once the request context is cancelled and both loops have taken
    their [Done] case, the connection is inert: no publish, delivery or
    further cancellation changes anything; in particular nothing more is
    queued or written. *)
Theorem stopped_connection_is_inert c es :
  PerUser.ctxDone c = true ->
  PerUser.bridge c = false ->
  PerUser.dispatcher c = false ->
  PerUser.run c es = Ok c.
Proof.
  intros Hc Hb Hd. induction es as [|e es IH]; [reflexivity|].
  assert (Hstep : PerUser.step c e = Ok c).
  { destruct c as [uid q w done b d rcv wr dr]. simpl in *. subst.
    by destruct e. }
  simpl. by rewrite Hstep.
Qed.

Lemma stopped_connection_is_inert_witness :
  exists c,
    PerUser.run (PerUser.open 42 Sample.writer true)
      [PerUser.publish 42 "a"; PerUser.Cancel; PerUser.BridgeStop;
       PerUser.DispatcherStop] = Ok c /\
    PerUser.run c [PerUser.publish 42 "b"; PerUser.Deliver; PerUser.Cancel]
      = Ok c.
Proof.
  eexists. split; [reflexivity|].
  apply stopped_connection_is_inert; reflexivity.
Defined.

Lemma step_extends c e c' :
  PerUser.step c e = Ok c' ->
  PerUser.userID c' = PerUser.userID c /\
  PerUser.written c `prefix_of` PerUser.written c' /\
  PerUser.received c `prefix_of` PerUser.received c' /\
  exists more, body (PerUser.w c') = body (PerUser.w c) +:+ more.
Proof.
  assert (Hrefl : forall c0 : PerUser.Conn,
            PerUser.userID c0 = PerUser.userID c0 /\
            PerUser.written c0 `prefix_of` PerUser.written c0 /\
            PerUser.received c0 `prefix_of` PerUser.received c0 /\
            exists more, body (PerUser.w c0) = body (PerUser.w c0) +:+ more).
  { intros c0. repeat split; try done. exists "". by rewrite append_nil_r. }
  destruct e; simpl.
  - destruct (PerUser.bridge c && _); [|by intros [= <-]].
    unfold PerUser.subscribeToUserChannel_msg.
    destruct (Chan.try_send _ _); [| |done]; intros [= <-]; simpl;
      (repeat split; [done|by apply prefix_app_r|]);
      exists ""; by rewrite append_nil_r.
  - intros [= <-]. destruct (PerUser.dispatcher c); [|done].
    unfold PerUser.sseHandler_msg.
    destruct (Chan.recv _) as [[msg q]|]; [|done]. simpl.
    repeat split; [by apply prefix_app_r|done|]. by exists (frame msg).
  - intros [= <-]. apply (Hrefl c).
  - intros [= <-]. apply (Hrefl c).
  - intros [= <-]. apply (Hrefl c).
Qed.

(** X16: the stream only grows and the identity is fixed: along every
    schedule, the user id of the connection stays what it was, and what
    had been received and written before is a prefix of what has been
    received and written after; the response body is only appended to. *)
Theorem stream_is_append_only es : forall c c',
  PerUser.run c es = Ok c' ->
  PerUser.userID c' = PerUser.userID c /\
  PerUser.written c `prefix_of` PerUser.written c' /\
  PerUser.received c `prefix_of` PerUser.received c' /\
  exists more, body (PerUser.w c') = body (PerUser.w c) +:+ more.
Proof.
  induction es as [|e es IH]; intros c c'; simpl.
  - intros [= <-]. repeat split; try done. exists "". by rewrite append_nil_r.
  - destruct (PerUser.step c e) as [c1|] eqn:Hs; [|done]. intros Hrun.
    destruct (step_extends c e c1 Hs) as (Hu & Hw & Hr & more1 & Hb).
    destruct (IH c1 c' Hrun) as (Hu' & Hw' & Hr' & more2 & Hb').
    repeat split; [congruence|by etrans|by etrans|].
    exists (more1 +:+ more2). by rewrite Hb', Hb, append_assoc.
Qed.

Lemma stream_is_append_only_witness :
  exists c',
    PerUser.userID c' = 42 /\
    [] `prefix_of` PerUser.written c' /\
    [] `prefix_of` PerUser.received c' /\
    exists more, body (PerUser.w c') = "" +:+ more.
Proof.
  eexists.
  apply (stream_is_append_only
           [PerUser.publish 42 "a"; PerUser.Deliver; PerUser.publish 42 "b"]
           (PerUser.open 42 Sample.writer true)).
  reflexivity.
Defined.

(** ** The shared variant: registrations, broadcasts and the dispatcher *)

Lemma broadcast_registry_open msg order st st' :
  Shared.registry_open st -> Shared.range_order st order ->
  Shared.clientManager_step order (Shared.Broadcast msg) st = Ok st' ->
  Shared.registry_open st'.
Proof.
  intros Hopen Hord Hstep.
  destruct (broadcast_spec msg order st Hopen Hord) as (st1 & Hrun & Hout & Hin).
  rewrite Hrun in Hstep. injection Hstep as <-.
  intros client Hsome.
  destruct (Shared.clients st !! client) as [b|] eqn:Hcl.
  - destruct (Hopen client) as (ch & Hch & Hcl0); [by rewrite Hcl|].
    destruct (Hin client ch) as [Hch1 Hcl1]; [by rewrite Hcl|done|].
    exists (Shared.offered msg ch). split; [done|].
    rewrite Hcl1 in Hsome. unfold Shared.offered, Shared.kept in *.
    destruct (Chan.len ch <? Chan.cap ch)%nat; [done|]. by destruct Hsome.
  - destruct (Hout client Hcl) as [_ Hcl1]. rewrite Hcl1 in Hsome.
    by destruct Hsome.
Qed.

Lemma exec_broadcast_inv st msg es r :
  Shared.registry_open st ->
  Shared.exec st (Shared.Cmd (Shared.Broadcast msg) :: es) r ->
  exists order st1,
    Shared.range_order st order /\
    Shared.clientManager_step order (Shared.Broadcast msg) st = Ok st1 /\
    Shared.registry_open st1 /\
    Shared.exec st1 es r.
Proof.
  intros Hopen Hexec. inversion Hexec as [| |? order ? st1 ? ? Hord Hstep Hrest
                                         |? order ? p ? Hord Hstep|]; subst.
  - exists order, st1. repeat split; try done.
    by eapply broadcast_registry_open.
  - destruct (broadcast_spec msg order st Hopen Hord) as (st1 & Hrun & _).
    congruence.
Qed.

(** X17: the ordinary end of a connection: deregistering a client whose
    channel is still open succeeds; the client is no longer registered,
    its channel is closed with its buffered messages kept, every other
    client and channel is untouched and the registry stays sound. *)
Theorem deregistration_of_live_client st order client ch :
  Shared.registry_open st ->
  Shared.chans st !! client = Some ch ->
  Chan.closed ch = false ->
  exists st',
    Shared.clientManager_step order (Shared.RemoveClient client) st = Ok st' /\
    Shared.clients st' !! client = None /\
    Shared.chans st' !! client
      = Some {| Chan.cap := Chan.cap ch; Chan.buf := Chan.buf ch;
                Chan.closed := true |} /\
    (forall other, other <> client ->
       Shared.clients st' !! other = Shared.clients st !! other /\
       Shared.chans st' !! other = Shared.chans st !! other) /\
    Shared.registry_open st'.
Proof.
  intros Hopen Hch Hcl. simpl. unfold Shared.remove, Chan.close.
  rewrite Hch, Hcl. eexists. split; [reflexivity|]. simpl.
  split; [apply lookup_delete_eq|]. split; [apply lookup_insert_eq|].
  assert (Hother : forall other, other <> client ->
            delete client (Shared.clients st) !! other
              = Shared.clients st !! other /\
            <[client:={| Chan.cap := Chan.cap ch; Chan.buf := Chan.buf ch;
                         Chan.closed := true |}]> (Shared.chans st) !! other
              = Shared.chans st !! other).
  { intros other Hne. by rewrite lookup_delete_ne, lookup_insert_ne. }
  split; [exact Hother|].
  intros other Hsome. simpl in *.
  destruct (decide (other = client)) as [->|Hne].
  - rewrite lookup_delete_eq in Hsome. by destruct Hsome.
  - destruct (Hother other Hne) as [Hc1 Hc2]. rewrite Hc1 in Hsome.
    rewrite Hc2. by apply Hopen.
Qed.

Lemma deregistration_of_live_client_witness :
  exists st',
    Shared.clientManager_step [] (Shared.RemoveClient 2)
      SharedSample.two_clients = Ok st' /\
    Shared.clients st' !! 2%nat = None /\
    Shared.chans st' !! 2%nat
      = Some {| Chan.cap := 10; Chan.buf := []; Chan.closed := true |} /\
    (forall other, other <> 2%nat ->
       Shared.clients st' !! other
         = Shared.clients SharedSample.two_clients !! other /\
       Shared.chans st' !! other
         = Shared.chans SharedSample.two_clients !! other) /\
    Shared.registry_open st'.
Proof.
  apply (deregistration_of_live_client SharedSample.two_clients [] 2%nat
           (Chan.make Shared.capacity) two_clients_open).
  - reflexivity.
  - reflexivity.
Defined.

(** X18: what [redisSubscriber] forwards reaches a registered client in
    order: when the payloads it sends on [broadcast] fit in the room left
    in the client's queue, then in every execution of the coordinator on
    them (whatever the order of its range loops) the coordinator does not
    panic, the client stays registered and its queue is the old one
    followed by the payloads, in the order of the subscription.  When the
    subscription is not confirmed nothing is sent. *)
Theorem subscriber_payloads_reach_client_in_order payloads :
  forall st client ch r,
    Shared.registry_open st ->
    is_Some (Shared.clients st !! client) ->
    Shared.chans st !! client = Some ch ->
    (Chan.len ch + length payloads <= Chan.cap ch)%nat ->
    Shared.exec st (Shared.Cmd <$> Shared.redisSubscriber true payloads) r ->
    Shared.redisSubscriber false payloads = [] /\
    exists st',
      r = Ok st' /\
      Shared.clients st' !! client = Shared.clients st !! client /\
      Shared.chans st' !! client
        = Some {| Chan.cap := Chan.cap ch; Chan.buf := Chan.buf ch ++ payloads;
                  Chan.closed := false |}.
Proof.
  unfold Shared.redisSubscriber.
  induction payloads as [|m payloads IH];
    intros st client ch r Hopen Hreg Hch Hroom Hexec;
    (split; [reflexivity|]).
  - inversion Hexec; subst. exists st. split; [done|]. split; [done|].
    destruct (Hopen client Hreg) as (ch' & Hch' & Hcl).
    rewrite Hch in Hch'. injection Hch' as <-.
    rewrite app_nil_r, Hch, <- Hcl. by destruct ch.
  - cbn [fmap list_fmap] in Hexec.
    apply exec_broadcast_inv in Hexec as (order & st1 & Hord & Hstep & Hopen1 & Hrest);
      [|done].
    destruct (broadcast_spec m order st Hopen Hord) as (st1' & Hrun & _ & Hin).
    rewrite Hrun in Hstep. injection Hstep as ->.
    destruct (Hin client ch Hreg Hch) as [Hch1 Hcl1].
    simpl in Hroom.
    assert (Hlt : (Chan.len ch <? Chan.cap ch)%nat = true)
      by (apply Nat.ltb_lt; lia).
    unfold Shared.offered, Shared.kept in *. rewrite Hlt in *.
    edestruct (IH st1 client) as (_ & st' & -> & Hcl' & Hch');
      [exact Hopen1|by rewrite Hcl1|exact Hch1| |exact Hrest|].
    { unfold Chan.len in *. simpl. rewrite length_app. simpl. lia. }
    exists st'. split; [done|]. split; [congruence|].
    rewrite Hch'. simpl. rewrite <- (assoc (++)).
    destruct (Hopen client Hreg) as (ch0 & Hch0 & Hcl0).
    rewrite Hch in Hch0. injection Hch0 as <-. done.
Qed.

Lemma subscriber_payloads_reach_client_in_order_witness :
  exists st',
    Shared.exec SharedSample.two_clients
      (Shared.Cmd <$> Shared.redisSubscriber true ["a"]) (Ok st') /\
    Shared.clients st' !! 2%nat = Some true /\
    Shared.chans st' !! 2%nat
      = Some {| Chan.cap := 10; Chan.buf := ["a"]; Chan.closed := false |}.
Proof.
  assert (Hexec : Shared.exec SharedSample.two_clients
            (Shared.Cmd <$> Shared.redisSubscriber true ["a"])
            (Shared.clientManager_step [1%nat; 2%nat] (Shared.Broadcast "a")
               SharedSample.two_clients)).
  { destruct (Shared.clientManager_step [1%nat; 2%nat] (Shared.Broadcast "a")
                SharedSample.two_clients) as [st1|p] eqn:Hs.
    - eapply Shared.exec_cmd;
        [exact two_clients_order|exact Hs|apply Shared.exec_done].
    - eapply Shared.exec_panic; [exact two_clients_order|exact Hs]. }
  destruct (subscriber_payloads_reach_client_in_order ["a"]
              SharedSample.two_clients 2%nat (Chan.make Shared.capacity)
              (Shared.clientManager_step [1%nat; 2%nat] (Shared.Broadcast "a")
                 SharedSample.two_clients)
              two_clients_open) as (_ & st' & Hr & Hcl & Hch);
    [by eexists|reflexivity|vm_compute; lia|exact Hexec|].
  exists st'. split; [by rewrite <- Hr|]. split; [exact Hcl|exact Hch].
Defined.

(** X19: a client that is not registered (never added, deregistered or
    evicted) gets nothing from the broadcasts: in every execution of the
    coordinator on a sequence of broadcasts from a sound registry, the
    coordinator does not panic, the client's channel is exactly what it
    was and the client is still not registered. *)
Theorem unregistered_client_receives_nothing msgs :
  forall st client r,
    Shared.registry_open st ->
    Shared.clients st !! client = None ->
    Shared.exec st (Shared.Cmd <$> (Shared.Broadcast <$> msgs)) r ->
    exists st',
      r = Ok st' /\
      Shared.chans st' !! client = Shared.chans st !! client /\
      Shared.clients st' !! client = None.
Proof.
  induction msgs as [|m msgs IH]; intros st client r Hopen Hnone Hexec.
  - inversion Hexec; subst. by exists st.
  - cbn [fmap list_fmap] in Hexec.
    apply exec_broadcast_inv in Hexec
      as (order & st1 & Hord & Hstep & Hopen1 & Hrest); [|done].
    destruct (broadcast_spec m order st Hopen Hord) as (st1' & Hrun & Hout & _).
    rewrite Hrun in Hstep. injection Hstep as ->.
    destruct (Hout client Hnone) as [Hch1 Hcl1].
    destruct (IH st1 client r Hopen1 Hcl1 Hrest) as (st' & -> & Hch' & Hcl').
    exists st'. split; [done|]. split; congruence.
Qed.

Lemma unregistered_client_receives_nothing_witness :
  exists st',
    Shared.exec SharedSample.two_clients
      (Shared.Cmd <$> (Shared.Broadcast <$> ["a"])) (Ok st') /\
    (Shared.chans st' !! 3%nat) = (Shared.chans SharedSample.two_clients !! 3%nat) /\
    Shared.clients st' !! 3%nat = None.
Proof.
  assert (Hexec : Shared.exec SharedSample.two_clients
            (Shared.Cmd <$> (Shared.Broadcast <$> ["a"]))
            (Shared.clientManager_step [1%nat; 2%nat] (Shared.Broadcast "a")
               SharedSample.two_clients)).
  { destruct (Shared.clientManager_step [1%nat; 2%nat] (Shared.Broadcast "a")
                SharedSample.two_clients) as [st1|p] eqn:Hs.
    - eapply Shared.exec_cmd;
        [exact two_clients_order|exact Hs|apply Shared.exec_done].
    - eapply Shared.exec_panic; [exact two_clients_order|exact Hs]. }
  destruct (unregistered_client_receives_nothing ["a"]
              SharedSample.two_clients 3%nat
              (Shared.clientManager_step [1%nat; 2%nat] (Shared.Broadcast "a")
                 SharedSample.two_clients)
              two_clients_open)
    as (st' & Hr & Hch & Hcl); [reflexivity|exact Hexec|].
  exists st'. split; [by rewrite <- Hr|]. split; [exact Hch|exact Hcl].
Defined.

Lemma sseHandler_loop_drains pending : forall ch w,
  Chan.buf ch = pending ->
  Shared.sseHandler_loop (length pending) ch w
  = Some ({| Chan.cap := Chan.cap ch; Chan.buf := []; Chan.closed := Chan.closed ch |},
          foldl (fun w msg => dispatch msg w) w pending).
Proof.
  induction pending as [|m pending IH]; intros ch w Hbuf.
  - simpl. rewrite <- Hbuf. by destruct ch.
  - simpl. unfold Shared.sseHandler_msg, Chan.recv. rewrite Hbuf.
    by rewrite IH.
Qed.

Lemma sseHandler_loop_spins n : forall ch w,
  Chan.buf ch = [] -> Chan.closed ch = true ->
  Shared.sseHandler_loop n ch w
  = Some (ch, foldl (fun w msg => dispatch msg w) w (replicate n "")).
Proof.
  induction n as [|n IH]; intros ch w Hbuf Hcl; [reflexivity|].
  simpl. unfold Shared.sseHandler_msg, Chan.recv. rewrite Hbuf, Hcl.
  by rewrite IH.
Qed.

Lemma sseHandler_loop_app n1 : forall n2 ch w,
  Shared.sseHandler_loop (n1 + n2) ch w
  = match Shared.sseHandler_loop n1 ch w with
    | Some (ch', w') => Shared.sseHandler_loop n2 ch' w'
    | None => None
    end.
Proof.
  induction n1 as [|n1 IH]; intros n2 ch w; [reflexivity|].
  simpl. destruct (Shared.sseHandler_msg ch w) as [[ch' w']|]; [|done].
  apply IH.
Qed.

Lemma body_dispatch_all msgs : forall w,
  body (foldl (fun w msg => dispatch msg w) w msgs) = body w +:+ frames msgs.
Proof.
  induction msgs as [|m msgs IH]; intros w.
  - simpl. by rewrite append_nil_r.
  - simpl foldl. rewrite IH, body_dispatch, append_assoc. reflexivity.
Qed.

(** X20: the dispatcher of the shared variant does not notice that its
    channel was closed (by an eviction): it first writes the frames of the
    messages still buffered, in order, and from then on every iteration of
    its loop receives the empty string at once and writes an empty frame;
    the receive never blocks again. *)
Theorem evicted_dispatcher_writes_empty_frames ch w n :
  Chan.closed ch = true ->
  exists ch' w',
    Shared.sseHandler_loop (length (Chan.buf ch) + n) ch w = Some (ch', w') /\
    Chan.buf ch' = [] /\
    Chan.closed ch' = true /\
    body w' = body w +:+ frames (Chan.buf ch) +:+ frames (replicate n "") /\
    Shared.sseHandler_msg ch' w' = Some (ch', dispatch "" w').
Proof.
  intros Hcl. rewrite sseHandler_loop_app.
  rewrite (sseHandler_loop_drains (Chan.buf ch) ch w eq_refl).
  rewrite sseHandler_loop_spins by done. rewrite Hcl.
  eexists _, _. split; [reflexivity|]. simpl.
  repeat split.
  by rewrite !body_dispatch_all, append_assoc.
Qed.

Lemma evicted_dispatcher_writes_empty_frames_witness :
  exists ch' w',
    Shared.sseHandler_loop (2 + 3)
      {| Chan.cap := 10; Chan.buf := ["a"; "b"]; Chan.closed := true |}
      Sample.writer = Some (ch', w') /\
    Chan.buf ch' = [] /\
    Chan.closed ch' = true /\
    body w' = "" +:+ frames ["a"; "b"] +:+ frames (replicate 3 "") /\
    Shared.sseHandler_msg ch' w' = Some (ch', dispatch "" w').
Proof.
  apply (evicted_dispatcher_writes_empty_frames
           {| Chan.cap := 10; Chan.buf := ["a"; "b"]; Chan.closed := true |}
           Sample.writer 3).
  reflexivity.
Defined.

(** X21: a connection does not depend on the traffic of other channels:
    running any schedule gives the same result (the same final connection,
    or the same panic) as running it with every publish on a channel other
    than the connection's own removed. *)
Theorem foreign_traffic_is_invisible es : forall c,
  PerUser.run c es
  = PerUser.run c
      (filter (fun e => PerUser.concerns (PerUser.userID c) e = true) es).
Proof.
  induction es as [|e es IH]; intros c; [reflexivity|].
  rewrite filter_cons.
  destruct (decide (PerUser.concerns (PerUser.userID c) e = true)) as [Hc|Hc].
  - simpl. destruct (PerUser.step c e) as [c1|p] eqn:Hs; [|reflexivity].
    destruct (step_extends c e c1 Hs) as [Hu _]. by rewrite IH, Hu.
  - destruct e as [channel payload| | | |]; try done.
    simpl in Hc. apply not_true_is_false in Hc.
    simpl. rewrite Hc, andb_false_r. apply IH.
Qed.

(** ** Order of delivery, frames and channels, against the schedule *)

Lemma received_follows_schedule es : forall c c',
  PerUser.run c es = Ok c' ->
  PerUser.received c'
  = PerUser.received c
    ++ PerUser.handed_to_bridge (PerUser.userID c) (PerUser.bridge c)
         (PerUser.ctxDone c) es.
Proof.
  induction es as [|e es IH]; intros c c'; simpl.
  - intros [= <-]. by rewrite app_nil_r.
  - destruct (PerUser.step c e) as [c1|p] eqn:Hs; [|done]. intros Hrun.
    rewrite (IH c1 c' Hrun). clear IH Hrun.
    destruct e as [channel payload| | | |]; simpl in Hs.
    + destruct (PerUser.bridge c && _) eqn:Hb.
      * unfold PerUser.subscribeToUserChannel_msg in Hs.
        destruct (Chan.try_send _ _); [| |done]; injection Hs as <-; simpl;
          by rewrite <- (assoc (++)).
      * by injection Hs as <-.
    + injection Hs as <-. destruct (PerUser.dispatcher c); [|done].
      unfold PerUser.sseHandler_msg. by destruct (Chan.recv _) as [[m q]|].
    + by injection Hs as <-.
    + by injection Hs as <-.
    + by injection Hs as <-.
Qed.




(** In [main.go] the queue of a connection is never closed and every
    delivery writes the frame of the head of the queue. *)
Lemma PerUser_delivery_writes_head_frame c m rest :
  PerUser.dispatcher c = true ->
  Chan.buf (PerUser.queue c) = m :: rest ->
  exists c',
    PerUser.step c PerUser.Deliver = Ok c' /\
    body (PerUser.w c') = body (PerUser.w c) +:+ "data: " +:+ m +:+ LF +:+ LF /\
    Chan.buf (PerUser.queue c') = rest /\
    PerUser.written c' = PerUser.written c ++ [m].
Proof.
  intros Hd Hbuf. simpl. rewrite Hd.
  unfold PerUser.sseHandler_msg, Chan.recv. rewrite Hbuf.
  eexists. split; [reflexivity|]. done.
Qed.

(** C9 holds for the dispatcher of [main.go] and, in the shared variant,
    for every message the dispatcher finds in its queue; it fails in the
    shared variant once the queue was closed by an eviction.  In [main.go]
    a delivery takes the oldest queued message and appends to the body
    [data: ], the message unchanged and two line feeds, and along every
    schedule the queue stays open and the body is the frames of the
    messages written, in order.  In the shared variant the dispatcher does
    the same for a buffered message; but after a broadcast has evicted a
    client with a full queue, without forwarding that message to it, the
    client's dispatcher writes the frames of the buffered messages and
    then, at every further iteration, a frame with an empty payload that
    no message stands behind. *)
Theorem dispatcher_frames_and_closed_queue :
  (forall c m rest,
     PerUser.dispatcher c = true ->
     Chan.buf (PerUser.queue c) = m :: rest ->
     exists c',
       PerUser.step c PerUser.Deliver = Ok c' /\
       body (PerUser.w c')
         = body (PerUser.w c) +:+ "data: " +:+ m +:+ LF +:+ LF /\
       Chan.buf (PerUser.queue c') = rest /\
       PerUser.written c' = PerUser.written c ++ [m]) /\
  (forall uid w0 subscribed es,
     exists c,
       PerUser.run (PerUser.open uid w0 subscribed) es = Ok c /\
       Chan.closed (PerUser.queue c) = false /\
       body (PerUser.w c) = body w0 +:+ frames (PerUser.written c) /\
       PerUser.written c ++ Chan.buf (PerUser.queue c)
         `sublist_of` PerUser.handed_to_bridge uid subscribed false es) /\
  (forall ch w m rest,
     Chan.buf ch = m :: rest ->
     exists w',
       Shared.sseHandler_msg ch w
         = Some ({| Chan.cap := Chan.cap ch; Chan.buf := rest;
                    Chan.closed := Chan.closed ch |}, w') /\
       body w' = body w +:+ "data: " +:+ m +:+ LF +:+ LF) /\
  (forall st order msg A ch w n,
     Shared.registry_open st ->
     Shared.range_order st order ->
     is_Some (Shared.clients st !! A) ->
     Shared.chans st !! A = Some ch ->
     Chan.len ch = Chan.cap ch ->
     exists st1 chA chA' w',
       Shared.clientManager_step order (Shared.Broadcast msg) st = Ok st1 /\
       Shared.chans st1 !! A = Some chA /\
       Chan.buf chA = Chan.buf ch /\
       Shared.sseHandler_loop (length (Chan.buf ch) + n) chA w
         = Some (chA', w') /\
       body w'
         = body w +:+ frames (Chan.buf ch)
           +:+ frames (replicate n "") /\
       Shared.sseHandler_msg chA' w' = Some (chA', dispatch "" w')).
Proof.
  split; [|split; [|split]].
  - apply PerUser_delivery_writes_head_frame.
  - intros uid w0 subscribed es.
    destruct (PerUserFacts.inv_run uid w0 es (PerUser.open uid w0 subscribed))
      as (c & Hrun & Hinv); [apply PerUserFacts.inv_open_conn|].
    exists c. split; [exact Hrun|].
    pose proof (received_follows_schedule es _ c Hrun) as Hrcv. simpl in Hrcv.
    destruct Hinv as [_ Ho _ _ Hs _ _ Hb]. rewrite <- Hrcv. done.
  - intros ch w m rest Hbuf. unfold Shared.sseHandler_msg, Chan.recv.
    rewrite Hbuf. eexists. split; reflexivity.
  - intros st order msg A ch w n Hopen Hord HA Hch Hfull.
    destruct (broadcast_spec msg order st Hopen Hord) as (st1 & Hrun & _ & Hin).
    destruct (Hin A ch HA Hch) as [Hch1 _].
    unfold Shared.offered in Hch1. rewrite Hfull, Nat.ltb_irrefl in Hch1.
    eexists st1, _, _, _. split; [exact Hrun|]. split; [exact Hch1|].
    split; [reflexivity|].
    rewrite sseHandler_loop_app.
    rewrite (sseHandler_loop_drains (Chan.buf ch)
               {| Chan.cap := Chan.cap ch; Chan.buf := Chan.buf ch;
                  Chan.closed := true |} w eq_refl).
    rewrite sseHandler_loop_spins by done. simpl.
    split; [reflexivity|]. split; [|reflexivity].
    by rewrite !body_dispatch_all, append_assoc.
Qed.

Lemma dispatcher_frames_and_closed_queue_witness :
  exists st1 chA chA' w',
    Shared.clientManager_step [1%nat] (Shared.Broadcast "late")
      SharedSample.one_client = Ok st1 /\
    Shared.chans st1 !! 1%nat = Some chA /\
    Chan.buf chA = replicate 10 "m" /\
    Shared.sseHandler_loop (10 + 3) chA Sample.writer = Some (chA', w') /\
    body w' = "" +:+ frames (replicate 10 "m") +:+ frames (replicate 3 "") /\
    Shared.sseHandler_msg chA' w' = Some (chA', dispatch "" w').
Proof.
  destruct dispatcher_frames_and_closed_queue as (_ & _ & _ & Hevicted).
  apply (Hevicted SharedSample.one_client [1%nat] "late" 1%nat
           SharedSample.full_queue Sample.writer 3%nat
           one_client_open one_client_order).
  - by eexists.
  - reflexivity.
  - reflexivity.
Defined.

Lemma fmt_d_reads_back n :
  exists d,
    NilEmpty.int_of_string (fmt_d n) = Some d /\
    Z.of_int d = n /\
    Decimal.norm d = d.
Proof.
  exists (Z.to_int n). unfold fmt_d. split; [apply NilEmpty.isi|].
  split; [apply DecimalZ.of_to|].
  rewrite <- DecimalZ.to_of. by rewrite DecimalZ.of_to.
Qed.

(** C10: the decimal rendering in a channel name reads back, by the
    decimal reader, as the numeral without leading zeros whose value is
    the user id (so 42 gives [events:user:42] and -7 gives
    [events:user:-7]), and two user ids with the same channel name are
    equal.  A request that [sseHandler] of [main.go] accepts starts
    exactly one subscription, on [events:user:] followed by the rendering
    of the verified user id, and whatever the request, every subscription
    the handler starts is the one of the user id that [verifySseToken]
    returned.  The connection of a user receives what is published on
    that channel, and a publish on the channel of another user id leaves
    it as it is (nothing is received, queued or written). *)
Theorem channelName_separates_identities :
  (forall uid,
     exists d,
       PerUser.channelName uid
         = "events:user:" +:+ NilEmpty.string_of_int d /\
       NilEmpty.int_of_string (NilEmpty.string_of_int d) = Some d /\
       Z.of_int d = uid /\ Decimal.norm d = d) /\
  (PerUser.channelName 42 = "events:user:42" /\
   PerUser.channelName 0 = "events:user:0" /\
   PerUser.channelName (-7) = "events:user:-7") /\
  (forall u v, PerUser.channelName u = PerUser.channelName v -> u = v) /\
  (forall decode mac (Options : Type) (ParseURL : string -> option Options)
          env now w r claims exp opts,
     verifySseToken decode mac now (Query_Get (query r) "ssetoken")
       (Getenv env "GO_SSE_SIDECAR_TOKEN") = Ok claims ->
     Jwt.ExpiresAt (RegisteredClaims claims) = Some exp ->
     flusher w = true ->
     getRedisClient Options ParseURL env = Ok opts ->
     let s := PerUser.sseHandler decode mac Options ParseURL env now w r in
     outcome s = Streaming (UserID claims) /\
     subscriptions (effects s) = [PerUser.channelName (UserID claims)]) /\
  (forall decode mac (Options : Type) (ParseURL : string -> option Options)
          env now w r name,
     name ∈ subscriptions
              (effects (PerUser.sseHandler decode mac Options ParseURL
                          env now w r)) ->
     exists claims,
       verifySseToken decode mac now (Query_Get (query r) "ssetoken")
         (Getenv env "GO_SSE_SIDECAR_TOKEN") = Ok claims /\
       name = PerUser.channelName (UserID claims)) /\
  (forall c payload,
     PerUser.bridge c = true ->
     Chan.closed (PerUser.queue c) = false ->
     (Chan.len (PerUser.queue c) < Chan.cap (PerUser.queue c))%nat ->
     exists c',
       PerUser.step c
         (PerUser.Published (PerUser.channelName (PerUser.userID c)) payload)
         = Ok c' /\
       PerUser.received c' = PerUser.received c ++ [payload] /\
       Chan.buf (PerUser.queue c') = Chan.buf (PerUser.queue c) ++ [payload]) /\
  (forall c v payload,
     v <> PerUser.userID c ->
     PerUser.step c (PerUser.Published (PerUser.channelName v) payload) = Ok c).
Proof.
  assert (Hinj : forall u v,
            PerUser.channelName u = PerUser.channelName v -> u = v).
  { intros u v H. apply fmt_d_inj. unfold PerUser.channelName in H.
    by apply (inj (String.app "events:user:")) in H. }
  split; [|split; [|split; [|split; [|split; [|split]]]]].
  - intros uid. destruct (fmt_d_reads_back uid) as (d & Hparse & Hval & Hnorm).
    exists (Z.to_int uid). unfold PerUser.channelName, fmt_d.
    split; [reflexivity|]. split; [apply NilEmpty.isi|].
    split; [apply DecimalZ.of_to|].
    rewrite <- DecimalZ.to_of. by rewrite DecimalZ.of_to.
  - repeat split.
  - exact Hinj.
  - intros decode mac Options ParseURL env now w r claims exp opts
           Hv He Hfl Hurl.
    unfold PerUser.sseHandler. rewrite Hv, He, Hurl. simpl. rewrite Hfl. done.
  - intros decode mac Options ParseURL env now w r name.
    unfold PerUser.sseHandler.
    destruct (verifySseToken _ _ _ _ _) as [claims|err].
    + destruct (Jwt.ExpiresAt _); simpl.
      * destruct (flusher w); simpl.
        -- destruct (getRedisClient _ _ _); simpl.
           ++ intros ->%list_elem_of_singleton. by exists claims.
           ++ by intros ?%elem_of_nil.
        -- by intros ?%elem_of_nil.
      * by intros ?%elem_of_nil.
    + simpl. by intros ?%elem_of_nil.
  - intros c payload Hb Ho Hroom. simpl.
    rewrite Hb, String.eqb_refl. simpl.
    unfold PerUser.subscribeToUserChannel_msg, Chan.try_send.
    rewrite Ho. apply Nat.ltb_lt in Hroom. rewrite Hroom.
    eexists. split; [reflexivity|]. done.
  - intros c v payload Hne. unfold PerUser.step.
    destruct (String.eqb_spec (PerUser.channelName v)
                (PerUser.channelName (PerUser.userID c))) as [Heq|_].
    + by apply Hinj in Heq.
    + by rewrite andb_false_r.
Qed.

Lemma channelName_separates_identities_witness :
  let s := PerUser.sseHandler Sample.decode Sample.mac string Sample.ParseURL
             Sample.env Sample.now Sample.writer (Sample.request "valid") in
  outcome s = Streaming 42 /\
  subscriptions (effects s) = [PerUser.channelName 42].
Proof.
  destruct channelName_separates_identities as (_ & _ & _ & Hsub & _).
  apply (Hsub Sample.decode Sample.mac string Sample.ParseURL Sample.env
           Sample.now Sample.writer (Sample.request "valid")
           {| UserID := 42;
              RegisteredClaims := Sample.registered (Some 2000) None |}
           2000 "redis://localhost:6379/0").
  - vm_compute. reflexivity.
  - reflexivity.
  - reflexivity.
  - vm_compute. reflexivity.
Defined.
